(** * Essay assessment support: grammar client, highlighter, section parser

    A shallow embedding of the non-UI logic of [streamlit_app.py]:

    - [SimpleLanguageToolChecker.check_text], the grammar client, over an
      explicit description of what the HTTP call came back with;
    - [render_simple_highlight], the offset highlighter, with the in-place
      sort of its argument made explicit by returning the list as well;
    - the section parser of [main], a line scanner with a cursor
      ([current_section]) and a dictionary ([parsed_data]).

    A Python [str] is a sequence of Unicode code points, and offsets index
    code points, so a string is a [list N] here and never a byte string. *)

From Stdlib Require Import ZArith NArith List Ascii String Permutation Sorted Lia.
From stdpp Require Import base option list gmap sorting.

Open Scope Z_scope.

(** ** Python strings *)

Module PyStr.

Abbreviation str := (list N).

(** The code points of an ASCII literal. *)
Definition cp (s : string) : str :=
  List.map N_of_ascii (list_ascii_of_string s).

Definition newline : N := 10%N.
Definition space : N := 32%N.
Definition colon : N := 58%N.
Definition star : N := 42%N.
Definition dash : N := 45%N.
Definition hash : N := 35%N.
Definition dquote : N := 34%N.

(** [len(s)] as a Python integer. *)
Definition len (s : str) : Z := Z.of_nat (List.length s).

(** [c in s] for a one-character [c]. *)
Definition contains (c : N) (s : str) : bool := existsb (N.eqb c) s.

(** [s.replace(old, new)] for a one-character [old]: every occurrence is
    replaced, left to right. *)
Definition replace_char (old : N) (new : str) (s : str) : str :=
  flat_map (fun c => if N.eqb c old then new else [c]) s.

(** [s.startswith(p)]. *)
Fixpoint startswith (s p : str) {struct p} : bool :=
  match p, s with
  | [], _ => true
  | _ :: _, [] => false
  | a :: p', b :: s' => N.eqb a b && startswith s' p'
  end.

(** The characters [str.strip()] removes: those for which [str.isspace]
    holds (Unicode White_Space plus the four ASCII separators 28..31). *)
Definition isspace (c : N) : bool :=
  ((9 <=? c) && (c <=? 13) || (28 <=? c) && (c <=? 32)
   || (c =? 133) || (c =? 160) || (c =? 5760)
   || (8192 <=? c) && (c <=? 8202)
   || (c =? 8232) || (c =? 8233) || (c =? 8239) || (c =? 8287)
   || (c =? 12288))%N.

Fixpoint lstrip (s : str) : str :=
  match s with
  | [] => []
  | c :: s' => if isspace c then lstrip s' else s
  end.

Definition rstrip (s : str) : str := rev (lstrip (rev s)).

Definition strip (s : str) : str := rstrip (lstrip s).

(** [s.split(sep)] for a one-character [sep]; never empty:
    [''.split(sep) == ['']]. *)
Fixpoint split (sep : N) (s : str) : list str :=
  match s with
  | [] => [[]]
  | c :: s' =>
      if N.eqb c sep then [] :: split sep s'
      else match split sep s' with
           | l :: ls => (c :: l) :: ls
           | [] => [[c]]
           end
  end.

(** [s.split(sep, 1)]: at most one cut, at the first [sep]. *)
Fixpoint split1 (sep : N) (s : str) : list str :=
  match s with
  | [] => [[]]
  | c :: s' =>
      if N.eqb c sep then [[]; s']
      else match split1 sep s' with
           | l :: ls => (c :: l) :: ls
           | [] => [[c]]
           end
  end.

(** A slice bound: a negative index counts from the end, and the result
    is clamped to [0 .. n]. *)
Definition clamp_index (n i : Z) : Z :=
  if i <? 0 then Z.max 0 (i + n) else Z.min i n.

(** [s[lo:hi]]; [None] is an omitted bound. *)
Definition slice (s : str) (lo hi : option Z) : str :=
  let n := len s in
  let a := from_option (clamp_index n) 0 lo in
  let b := from_option (clamp_index n) n hi in
  take (Z.to_nat (b - a)) (drop (Z.to_nat a) s).

End PyStr.

Import PyStr.

(** ** JSON values, as [response.json()] hands them to Python *)

#[warnings="-register-all"]
Inductive json : Type :=
| JNull
| JBool (b : bool)
| JInt (z : Z)
| JFloat (literal : str)
| JStr (s : str)
| JArr (l : list json)
| JObj (items : list (str * json)).

(** An error record, the dict built at lines 127-132. The keys are
    ["offset"], ["length"] ([err_length] here), ["replacements"] and
    ["bad_word"]. A JSON boolean in offset or length position is a Python
    [bool], which every later use reads as the integer 0 or 1; the record
    stores that integer. *)
Record ErrorSpan : Type := {
  offset : Z;
  err_length : Z;
  replacements : list json;
  bad_word : str
}.

(** ** The highlighter *)

Module Highlight.

Definition span_open : str :=
  cp "<span class=" ++ [dquote] ++ cp "grammar-error" ++ [dquote] ++ cp ">".
Definition span_close : str := cp "</span>".
Definition br : str := cp "<br>".

(** [l.sort(key=key, reverse=True)]: descending by key, and stable, so
    items with equal keys stay in their original relative order. *)
Section Sort.
Context {A : Type} (key : A -> Z).

Fixpoint insert_desc (x : A) (l : list A) : list A :=
  match l with
  | [] => [x]
  | y :: l' => if key x <? key y then y :: insert_desc x l' else x :: l
  end.

Fixpoint sort_desc (l : list A) : list A :=
  match l with
  | [] => []
  | x :: l' => insert_desc x (sort_desc l')
  end.
End Sort.

(** One iteration of the loop at lines 146-153. *)
Definition splice (highlighted_text : str) (err : ErrorSpan) : str :=
  let start := offset err in
  let end_ := start + err_length err in
  let bad_segment := slice highlighted_text (Some start) (Some end_) in
  let replacement := span_open ++ bad_segment ++ span_close in
  slice highlighted_text None (Some start) ++ replacement
    ++ slice highlighted_text (Some end_) None.

(** The working copy when the loop ends, before the newline conversion. *)
Definition spliced (text : str) (errors : list ErrorSpan) : str :=
  fold_left splice errors text.

(** [render_simple_highlight]. [errors.sort] sorts the caller's list in
    place, so the list as the call leaves it is the second component. *)
Definition render_simple_highlight (text : str) (errors : list ErrorSpan)
  : str * list ErrorSpan :=
  match errors with
  | [] => (text, errors)
  | _ :: _ =>
      let errors' := sort_desc offset errors in
      (replace_char newline br (spliced text errors'), errors')
  end.

(** A span with nothing but its position, for examples. *)
Definition span_of (o l : Z) : ErrorSpan :=
  {| offset := o; err_length := l; replacements := []; bad_word := [] |}.

End Highlight.

(** ** Exceptions *)

Module Py.

(** The exception classes the modelled code can meet; all derive from
    [Exception]. *)
Inductive exn : Type :=
| ConnectionError
| Timeout
| HTTPError
| JSONDecodeError
| AttributeError
| KeyError
| TypeError
| IndexError.

Inductive result (A : Type) : Type :=
| Ok (a : A)
| Raise (e : exn).
Arguments Ok {A} a.
Arguments Raise {A} e.

Definition bind {A B : Type} (r : result A) (k : A -> result B) : result B :=
  match r with
  | Ok a => k a
  | Raise e => Raise e
  end.

(** [try: body / except Exception: handler]. *)
Definition try_except {A : Type} (body : result A) (handler : exn -> result A)
  : result A :=
  match body with
  | Ok a => Ok a
  | Raise e => handler e
  end.

(** A comprehension or [for] loop whose body may raise: the first
    exception ends it. *)
Fixpoint for_each {A B : Type} (f : A -> result B) (l : list A)
  : result (list B) :=
  match l with
  | [] => Ok []
  | x :: l' =>
      bind (f x) (fun y => bind (for_each f l') (fun ys => Ok (y :: ys)))
  end.

(** A loop that threads a state. *)
Fixpoint fold_each {A S : Type} (f : S -> A -> result S) (l : list A) (s : S)
  : result S :=
  match l with
  | [] => Ok s
  | x :: l' => bind (f s x) (fold_each f l')
  end.

End Py.

Import Py.

Notation "x <- r ;; k" := (bind r (fun x => k))
  (at level 100, r at next level, right associativity).

(** ** The grammar client *)

Module Grammar.

(** What [requests.post(..., timeout=30)] came back with. A body that is
    not JSON is [None]. *)
Inductive post_outcome : Type :=
| ConnectionFailed
| TimedOut
| Responded (status_code : Z) (body : option json).

Record response : Type := {
  status_code : Z;
  body : option json
}.

Definition requests_post (o : post_outcome) : result response :=
  match o with
  | ConnectionFailed => Raise ConnectionError
  | TimedOut => Raise Timeout
  | Responded s b => Ok {| status_code := s; body := b |}
  end.

(** [Response.raise_for_status]: [HTTPError] for a client error (4xx) or
    a server error (5xx) status, nothing otherwise. *)
Definition raise_for_status (r : response) : result unit :=
  if (400 <=? status_code r) && (status_code r <? 600)
  then Raise HTTPError else Ok tt.

Definition response_json (r : response) : result json :=
  match body r with
  | Some j => Ok j
  | None => Raise JSONDecodeError
  end.

(** The items of a dict, looked up by key. *)
Fixpoint assoc (k : str) (items : list (str * json)) : option json :=
  match items with
  | [] => None
  | (k', v) :: rest => if bool_decide (k = k') then Some v else assoc k rest
  end.

(** [d.get(k, default)]: only a dict has [get]. *)
Definition py_get (d : json) (k : str) (default : json) : result json :=
  match d with
  | JObj items => Ok (from_option id default (assoc k items))
  | _ => Raise AttributeError
  end.

(** [d[k]] for a string [k]. *)
Definition py_getitem (d : json) (k : str) : result json :=
  match d with
  | JObj items =>
      match assoc k items with
      | Some v => Ok v
      | None => Raise KeyError
      end
  | _ => Raise TypeError
  end.

(** [for x in v]: a list yields its elements, a dict its keys, a string
    its characters; nothing else is iterable. *)
Definition py_iter (v : json) : result (list json) :=
  match v with
  | JArr l => Ok l
  | JObj items => Ok (List.map (fun kv => JStr (fst kv)) items)
  | JStr s => Ok (List.map (fun c => JStr [c]) s)
  | _ => Raise TypeError
  end.

(** A value usable as a slice bound and as an operand of the [+] that
    computes one: an [int], [bool] included. With any other offset or
    length, [match["offset"] + match["length"]] or the slice itself
    raises [TypeError]. *)
Definition as_int (v : json) : result Z :=
  match v with
  | JInt z => Ok z
  | JBool b => Ok (if b then 1 else 0)
  | _ => Raise TypeError
  end.

(** Line 126: [[r["value"] for r in match.get("replacements", [])][:3]]. *)
Definition replacement_values (match_ : json) : result (list json) :=
  rs <- py_get match_ (cp "replacements") (JArr []) ;;
  rs <- py_iter rs ;;
  vals <- for_each (fun r => py_getitem r (cp "value")) rs ;;
  Ok (take 3 vals).

(** Lines 126-132, one iteration. *)
Definition error_of_match (text : str) (match_ : json) : result ErrorSpan :=
  replacements <- replacement_values match_ ;;
  off <- py_getitem match_ (cp "offset") ;;
  ln <- py_getitem match_ (cp "length") ;;
  o <- as_int off ;;
  l <- as_int ln ;;
  Ok {| offset := o;
        err_length := l;
        replacements := replacements;
        bad_word := slice text (Some o) (Some (o + l)) |}.

(** Lines 124-133: the records of a decoded payload. *)
Definition read_records (text : str) (payload : json)
  : result (list ErrorSpan) :=
  matches <- py_get payload (cp "matches") (JArr []) ;;
  matches <- py_iter matches ;;
  for_each (error_of_match text) matches.

(** The body of the [try]. *)
Definition check_text_body (text : str) (o : post_outcome)
  : result (list ErrorSpan) :=
  response <- requests_post o ;;
  _ <- raise_for_status response ;;
  result <- response_json response ;;
  read_records text result.

(** [SimpleLanguageToolChecker.check_text]. *)
Definition check_text (text : str) (o : post_outcome) : result (list ErrorSpan) :=
  try_except (check_text_body text o) (fun _ => Ok []).

End Grammar.

(** ** The section parser *)

Module Parser.

Definition section_map_t : Type := list (str * list str).

(** The loop state: the dictionary and the cursor. *)
Record state : Type := {
  parsed_data : gmap str str;
  current_section : option str
}.

(** [{k: "" for k in section_map}]. *)
Definition init_data (smap : section_map_t) : gmap str str :=
  list_to_map (List.map (fun kv => (fst kv, [])) smap).

(** [d[k] += x]: reads [d[k]], so a missing key is a [KeyError]. *)
Definition dict_append (d : gmap str str) (k x : str) : result (gmap str str) :=
  match d !! k with
  | Some v => Ok (<[k := v ++ x]> d)
  | None => Raise KeyError
  end.

(** Truth value of [current_section]: [None] and [""] are false. *)
Definition truthy (cs : option str) : option str :=
  match cs with
  | Some (c :: k) => Some (c :: k)
  | _ => None
  end.

Section WithLower.
(** [str.lower], the runtime's Unicode case mapping. *)
Variable lower : str -> str.

(** Line 321. *)
Definition normalize (clean_line : str) : str :=
  lower (strip (replace_char hash []
                  (replace_char dash [] (replace_char star [] clean_line)))).

(** The inner loop, lines 322-330: does some keyword of the list match? *)
Definition keyword_hit (norm_line : str) (keywords : list str) : bool :=
  existsb (fun kw => startswith norm_line (lower kw)) keywords.

(** The outer loop, lines 320-331: the section the line opens, if any. *)
Fixpoint find_section (smap : section_map_t) (norm_line : str) : option str :=
  match smap with
  | [] => None
  | (section_key, keywords) :: rest =>
      if keyword_hit norm_line keywords then Some section_key
      else find_section rest norm_line
  end.

(** Lines 326-329, on the line that opened [section_key]. *)
Definition open_section (d : gmap str str) (section_key clean_line : str)
  : result (gmap str str) :=
  if contains colon clean_line then
    match split1 colon clean_line !! 1%nat with
    | None => Raise IndexError
    | Some part =>
        match strip part with
        | [] => Ok d
        | content_part => dict_append d section_key (content_part ++ [space])
        end
    end
  else Ok d.

(** The body of the loop over lines, lines 316-334. *)
Definition step (smap : section_map_t) (st : state) (line : str) : result state :=
  match strip line with
  | [] => Ok st
  | clean_line =>
      match find_section smap (normalize clean_line) with
      | Some section_key =>
          d <- open_section (parsed_data st) section_key clean_line ;;
          Ok {| parsed_data := d; current_section := Some section_key |}
      | None =>
          match truthy (current_section st) with
          | Some k =>
              d <- dict_append (parsed_data st) k (clean_line ++ [space]) ;;
              Ok {| parsed_data := d; current_section := current_section st |}
          | None => Ok st
          end
      end
  end.

Definition parse_lines (smap : section_map_t) (lines : list str) (st : state)
  : result state :=
  fold_each (step smap) lines st.

(** Lines 309-334: from the model's text to [parsed_data]. *)
Definition parse (smap : section_map_t) (llm_response_text : str)
  : result (gmap str str) :=
  st <- parse_lines smap (split newline llm_response_text)
          {| parsed_data := init_data smap; current_section := None |} ;;
  Ok (parsed_data st).
End WithLower.

(** The second keyword of each section: the Vietnamese labels of lines
    300-306, as code points. *)
Definition kw_task_response : str :=
  (cp "Ph" ++ [7843] ++ cp "n h" ++ [7891] ++ cp "i y" ++ [234] ++ cp "u c"
   ++ [7847] ++ cp "u")%N.
Definition kw_information_accuracy : str :=
  ([272; 7897] ++ cp " ch" ++ [237] ++ cp "nh x" ++ [225] ++ cp "c th" ++ [244]
   ++ cp "ng tin")%N.
Definition kw_idea_development : str :=
  (cp "Ph" ++ [225] ++ cp "t tri" ++ [7875] ++ cp "n " ++ [253] ++ cp " t"
   ++ [432; 7903] ++ cp "ng")%N.
Definition kw_coherence : str :=
  (cp "S" ++ [7921] ++ cp " m" ++ [7841] ++ cp "ch l" ++ [7841] ++ cp "c")%N.
Definition kw_summary : str :=
  (cp "K" ++ [7871] ++ cp "t lu" ++ [7853] ++ cp "n")%N.
Definition kw_final_evaluation : str :=
  ([272; 225] ++ cp "nh gi" ++ [225] ++ cp " t" ++ [7893] ++ cp "ng quan")%N.
Definition kw_ai_plagiarism : str :=
  (cp "Ph" ++ [225] ++ cp "t hi" ++ [7879] ++ cp "n AI")%N.

(** Lines 299-307. *)
Definition section_map : section_map_t :=
  [ (cp "Task Response", [cp "Task Response"; kw_task_response]);
    (cp "Information Accuracy", [cp "Information Accuracy"; kw_information_accuracy]);
    (cp "Idea Development", [cp "Idea Development"; kw_idea_development]);
    (cp "Coherence", [cp "Coherence"; kw_coherence]);
    (cp "Summary", [cp "Summary"; kw_summary]);
    (cp "Final Evaluation", [cp "Final Evaluation"; kw_final_evaluation]);
    (cp "AI Plagiarism", [cp "AI Plagiarism"; kw_ai_plagiarism]) ].

End Parser.

(** ** The prompt builder *)

Module Prompt.

(** The twelve spaces the literals of lines 186-235 are indented by. *)
Definition indent : str := cp "            ".

Definition system_role_vi : str :=
  (cp "B" ++ [7841] ++ cp "n l" ++ [224] ++ cp " chuy" ++ [234]
   ++ cp "n gia " ++ [273; 225] ++ cp "nh gi" ++ [225] ++ cp " h" ++ [7885]
   ++ cp "c thu" ++ [7853] ++ cp "t c" ++ [7911] ++ cp "a IAEA. H" ++ [227]
   ++ cp "y tr" ++ [7843] ++ cp " l" ++ [7901] ++ cp "i B" ++ [7856]
   ++ cp "NG TI" ++ [7870] ++ cp "NG VI" ++ [7878] ++ cp "T.")%N.

Definition output_structure_vi : str :=
  ([newline] ++ indent ++ cp "- Ph" ++ [7843] ++ cp "n h" ++ [7891]
   ++ cp "i y" ++ [234] ++ cp "u c" ++ [7847] ++ cp "u: (1~2 c" ++ [226]
   ++ cp "u " ++ [273; 225] ++ cp "nh gi" ++ [225] ++ cp ")" ++ [newline]
   ++ indent ++ cp "- " ++ [272; 7897] ++ cp " ch" ++ [237] ++ cp "nh x"
   ++ [225] ++ cp "c th" ++ [244] ++ cp "ng tin: (2~3 c" ++ [226] ++ cp "u x"
   ++ [225] ++ cp "c th" ++ [7921] ++ cp "c. In " ++ [273; 7853] ++ cp "m n"
   ++ [7871] ++ cp "u s" ++ [7917] ++ cp " d" ++ [7909] ++ cp "ng c" ++ [225]
   ++ cp "c t" ++ [7915] ++ cp " nh" ++ [432] ++ cp " **ch" ++ [237]
   ++ cp "nh x" ++ [225] ++ cp "c**/**kh" ++ [244] ++ cp "ng ch" ++ [237]
   ++ cp "nh x" ++ [225] ++ cp "c**)" ++ [newline] ++ indent ++ cp "- Ph"
   ++ [225] ++ cp "t tri" ++ [7875] ++ cp "n " ++ [253] ++ cp " t"
   ++ [432; 7903] ++ cp "ng: (1~2 c" ++ [226] ++ cp "u. In " ++ [273; 7853]
   ++ cp "m n" ++ [7871] ++ cp "u s" ++ [7917] ++ cp " d" ++ [7909]
   ++ cp "ng c" ++ [225] ++ cp "c t" ++ [7915] ++ cp " nh" ++ [432]
   ++ cp " **S" ++ [226] ++ cp "u s" ++ [7855] ++ cp "c**/**H" ++ [7901]
   ++ cp "i h" ++ [7907] ++ cp "t**)" ++ [newline] ++ indent ++ cp "- S"
   ++ [7921] ++ cp " m" ++ [7841] ++ cp "ch l" ++ [7841] ++ cp "c: (1~2 c"
   ++ [226] ++ cp "u)" ++ [newline] ++ indent ++ cp "- K" ++ [7871]
   ++ cp "t lu" ++ [7853] ++ cp "n: (2~3 c" ++ [226] ++ cp "u)" ++ [newline]
   ++ indent ++ cp "- " ++ [272; 225] ++ cp "nh gi" ++ [225] ++ cp " t"
   ++ [7893] ++ cp "ng quan: (Ch" ++ [7881] ++ cp " tr" ++ [7843] ++ cp " v"
   ++ [7873] ++ cp " 1 trong c" ++ [225] ++ cp "c gi" ++ [225] ++ cp " tr"
   ++ [7883] ++ cp ": K" ++ [233] ++ cp "m / Trung b" ++ [236]
   ++ cp "nh / Kh" ++ [225] ++ cp " / T" ++ [7889] ++ cp "t / Xu" ++ [7845]
   ++ cp "t s" ++ [7855] ++ cp "c)")%N.

Definition ai_line_vi : str :=
  ([newline] ++ indent ++ cp "- Ph" ++ [225] ++ cp "t hi" ++ [7879]
   ++ cp "n AI: (Tr" ++ [7843] ++ cp " v" ++ [7873] ++ cp " " ++ [432; 7899]
   ++ cp "c t" ++ [237] ++ cp "nh theo % t" ++ [7915] ++ cp " 1 "
   ++ [273; 7871] ++ cp "n 100)")%N.

Definition system_role_en : str :=
  (cp "You are a strict academic evaluator for the IAEA.")%N.

Definition output_structure_en : str :=
  ([newline] ++ indent ++ cp "- Task Response: (1~2 sentences)" ++ [newline]
   ++ indent
   ++ cp "- Information Accuracy: (2~3 sentences. Bold **accurate**, **inaccurate**)"
   ++ [newline] ++ indent
   ++ cp "- Idea Development: (1~2 sentences. Bold **Profound** or **Superficial**)"
   ++ [newline] ++ indent ++ cp "- Coherence: (1~2 sentences)" ++ [newline]
   ++ indent ++ cp "- Summary: (2~3 sentences)" ++ [newline] ++ indent
   ++ cp "- Final Evaluation: (Choose one: Poor / Average / Good / Excellent / Outstanding)")%N.

Definition ai_line_en : str :=
  ([newline] ++ indent ++ cp "- AI Plagiarism: (Estimated %, from 0 to 100)")%N.

Definition head_topic_vi : str :=
  ([newline] ++ indent ++ cp "**Ch" ++ [7911] ++ cp " " ++ [273; 7873]
   ++ cp ":** ")%N.

Definition head_request_vi : str :=
  ([newline] ++ indent ++ cp "**Y" ++ [234] ++ cp "u c" ++ [7847]
   ++ cp "u:** ")%N.

Definition head_essay_vi : str :=
  ([newline] ++ indent ++ cp "**B" ++ [224] ++ cp "i l" ++ [224]
   ++ cp "m:** ")%N.

Definition head_instructions_vi : str :=
  ([newline] ++ indent ++ [newline] ++ indent ++ cp "---" ++ [newline]
   ++ indent ++ cp "**H" ++ [431; 7898] ++ cp "NG D" ++ [7850] ++ cp "N:**"
   ++ [newline] ++ indent ++ [272; 225] ++ cp "nh gi" ++ [225] ++ cp " b"
   ++ [224] ++ cp "i lu" ++ [7853] ++ cp "n v" ++ [224] ++ cp " tr" ++ [7843]
   ++ cp " v" ++ [7873] ++ cp " k" ++ [7871] ++ cp "t qu" ++ [7843]
   ++ cp " theo " ++ [272; 218] ++ cp "NG C" ++ [7844] ++ cp "U TR" ++ [218]
   ++ cp "C sau (Kh" ++ [244] ++ cp "ng thay " ++ [273; 7893] ++ cp "i t"
   ++ [234] ++ cp "n m" ++ [7909] ++ cp "c):" ++ [newline] ++ indent)%N.

Definition tail_vi : str :=
  ([newline] ++ indent)%N.

Definition head_topic_en : str :=
  ([newline] ++ indent ++ cp "**Topic:** ")%N.

Definition head_request_en : str :=
  ([newline] ++ indent ++ cp "**Request:** ")%N.

Definition head_essay_en : str :=
  ([newline] ++ indent ++ cp "**Essay:** ")%N.

Definition head_instructions_en : str :=
  ([newline] ++ indent ++ [newline] ++ indent ++ cp "---" ++ [newline]
   ++ indent ++ cp "**INSTRUCTIONS:**" ++ [newline] ++ indent
   ++ cp "Evaluate and provide output in the EXACT format below:"
   ++ [newline] ++ indent)%N.

Definition tail_en : str :=
  ([newline] ++ indent)%N.

(** Lines 186-195 and 213-222: the labelled lines the model is told to
    answer with; [check_ai] appends one more. *)
Definition output_structure (vietsub check_ai : bool) : str :=
  if vietsub
  then output_structure_vi ++ (if check_ai then ai_line_vi else [])
  else output_structure_en ++ (if check_ai then ai_line_en else []).

Definition system_role (vietsub : bool) : str :=
  if vietsub then system_role_vi else system_role_en.

(** The f-strings of lines 199-208 and 226-235. *)
Definition human_message (topic request essay : str) (check_ai vietsub : bool)
  : str :=
  if vietsub
  then head_topic_vi ++ topic ++ head_request_vi ++ request ++ head_essay_vi
       ++ essay ++ head_instructions_vi ++ output_structure true check_ai
       ++ tail_vi
  else head_topic_en ++ topic ++ head_request_en ++ request ++ head_essay_en
       ++ essay ++ head_instructions_en ++ output_structure false check_ai
       ++ tail_en.

(** [build_assessment_prompt]: the (role, text) pairs it hands to
    [ChatPromptTemplate.from_messages]. *)
Definition build_assessment_prompt (topic request essay : str)
    (check_ai vietsub : bool) : list (str * str) :=
  [ (cp "system", system_role vietsub);
    (cp "human", human_message topic request essay check_ai vietsub) ].

End Prompt.

(** ** What [main] renders *)

Module Display.

(** [s.lstrip(c)] for a one-character [c]. *)
Fixpoint lstrip_char (c : N) (s : str) : str :=
  match s with
  | [] => []
  | x :: s' => if N.eqb x c then lstrip_char c s' else s
  end.

(** [parsed_data.get(k, "")]. *)
Definition dict_get (parsed_data : gmap str str) (k : str) : str :=
  from_option id [] (parsed_data !! k).

(** [show_section], lines 337-342: the markdown it emits, if any. *)
Definition show_section (parsed_data : gmap str str) (title content_key : str)
  : option str :=
  let content := strip (dict_get parsed_data content_key) in
  let content := strip (lstrip_char dash (lstrip_char star content)) in
  match content with
  | [] => None
  | _ :: _ => Some (cp "**" ++ title ++ cp ":** " ++ content)
  end.

(** The calls of lines 344-355: title and key, in order. The Vietnamese
    titles are the literals of the keyword map. *)
Definition section_titles (vietsub_mode : bool) : list (str * str) :=
  if vietsub_mode
  then [ (Parser.kw_task_response, cp "Task Response");
         (Parser.kw_information_accuracy, cp "Information Accuracy");
         (Parser.kw_idea_development, cp "Idea Development");
         (Parser.kw_coherence, cp "Coherence");
         (Parser.kw_summary, cp "Summary") ]
  else [ (cp "Task Response", cp "Task Response");
         (cp "Information Accuracy", cp "Information Accuracy");
         (cp "Idea Development", cp "Idea Development");
         (cp "Coherence", cp "Coherence");
         (cp "Summary", cp "Summary") ].

(** Everything lines 344-355 emit, in order. *)
Definition show_sections (parsed_data : gmap str str) (vietsub_mode : bool)
  : list str :=
  omap (fun tk => show_section parsed_data (fst tk) (snd tk))
       (section_titles vietsub_mode).

(** Lines 358-365: the final evaluation heading, if any. The emptiness
    test comes before the markers are removed. *)
Definition show_final_evaluation (parsed_data : gmap str str) : option str :=
  match strip (dict_get parsed_data (cp "Final Evaluation")) with
  | [] => None
  | final_eval =>
      let final_eval := strip (lstrip_char colon (lstrip_char star final_eval)) in
      Some (cp "### Final Evaluation: :blue[" ++ final_eval ++ cp "]")
  end.

(** Lines 359 and 368-370: the AI box, if any. *)
Definition show_ai_box (parsed_data : gmap str str) (check_ai : bool)
  : option str :=
  match strip (dict_get parsed_data (cp "AI Plagiarism")) with
  | [] => None
  | ai_score =>
      if check_ai then
        let ai_score := strip (lstrip_char colon (lstrip_char star ai_score)) in
        Some (cp "<div class=" ++ [dquote] ++ cp "ai-score-box" ++ [dquote]
              ++ cp ">" ++ [9888; 65039]%N ++ cp " AI Detection: " ++ ai_score
              ++ cp "</div>")
      else None
  end.

(** An item of a [str.join] argument must be a [str]. *)
Definition as_str (v : json) : result str :=
  match v with
  | JStr s => Ok s
  | _ => Raise TypeError
  end.

Fixpoint join_strs (sep : str) (items : list str) : str :=
  match items with
  | [] => []
  | [s] => s
  | s :: rest => s ++ sep ++ join_strs sep rest
  end.

(** [sep.join(items)]. *)
Definition py_join (sep : str) (items : list json) : result str :=
  strs <- for_each as_str items ;;
  Ok (join_strs sep strs).

(** Line 389. *)
Definition suggestions (e : ErrorSpan) : result str :=
  match replacements e with
  | [] => Ok (cp "None")
  | _ :: _ => py_join (cp ", ") (replacements e)
  end.

(** Lines 387-390: the rows of the table, as (Error, Suggestions). *)
Definition error_data (grammar_errors : list ErrorSpan)
  : result (list (str * str)) :=
  for_each (fun e => sugg <- suggestions e ;; Ok (bad_word e, sugg))
           grammar_errors.

(** What lines 376-394 show: the success message, or the count, the
    highlighted text and the table; building the table may raise. *)
Inductive grammar_view : Type :=
| NoErrorsFound
| Issues (count : Z) (html_view : str) (table : result (list (str * str))).

(** Lines 376-394. The table is built from the list as the highlighter
    left it. *)
Definition show_grammar (essay_input : str) (grammar_errors : list ErrorSpan)
  : grammar_view :=
  match grammar_errors with
  | [] => NoErrorsFound
  | _ :: _ =>
      let count := Z.of_nat (List.length grammar_errors) in
      let r := Highlight.render_simple_highlight essay_input grammar_errors in
      Issues count (fst r) (error_data (snd r))
  end.

(** Lines 287-291 with 373-394: the grammar check and its display. *)
Definition grammar_pass (essay_input : str) (o : Grammar.post_outcome)
  : result grammar_view :=
  grammar_errors <- Grammar.check_text essay_input o ;;
  Ok (show_grammar essay_input grammar_errors).

End Display.

Import Highlight Grammar Parser.
Import Prompt Display.

(** ** Vocabulary of the properties *)

(** Descending by key, as [sort_desc] leaves a list; [sdesc] is the strict
    version, which a list with pairwise distinct keys satisfies. *)
Definition desc {A : Type} (key : A -> Z) (a b : A) : Prop := key b <= key a.
Definition sdesc {A : Type} (key : A -> Z) (a b : A) : Prop := key b < key a.

(** What one wrapper adds: the opening tag and the closing tag. *)
Definition markup_overhead : Z := len span_open + len span_close.

(** [strips_to n s t]: [s] is [t] with [n] wrappers put around segments of
    it; removing those wrappers from [s] leaves [t]. *)
Inductive strips_to : nat -> str -> str -> Prop :=
| strips_nil : strips_to 0 [] []
| strips_char n c s t : strips_to n s t -> strips_to n (c :: s) (c :: t)
| strips_wrap n seg s t :
    strips_to n s t ->
    strips_to (S n) (span_open ++ seg ++ span_close ++ s) (seg ++ t).

(** Two spans that share no position. *)
Definition disjoint (a b : ErrorSpan) : Prop :=
  offset a + err_length a <= offset b \/ offset b + err_length b <= offset a.

(** No two spans of the sequence overlap. *)
Fixpoint pairwise_disjoint (l : list ErrorSpan) : Prop :=
  match l with
  | [] => True
  | e :: l' => Forall (disjoint e) l' /\ pairwise_disjoint l'
  end.

(** A span of the data model (offset non-negative, length positive) that
    lies within [text]. *)
Definition within (text : str) (e : ErrorSpan) : Prop :=
  0 <= offset e /\ 0 < err_length e /\ offset e + err_length e <= len text.

(** The loop's precondition on the spans still to come: each ends where
    the one before it starts, or earlier; the first ends at [p] at most. *)
Fixpoint chain (p : Z) (l : list ErrorSpan) : Prop :=
  match l with
  | [] => True
  | e :: l' =>
      0 <= offset e /\ 0 <= err_length e /\ offset e + err_length e <= p
      /\ chain (offset e) l'
  end.

(** Ascending by key. *)
Definition ascending {A : Type} (key : A -> Z) (a b : A) : Prop := key a <= key b.

(** [wrapped text p spans]: the text from position [p] on, with a wrapper
    around the segment [text[offset:offset+length]] of each span and the
    text between the segments as it is; the spans are read from left to
    right. *)
Fixpoint wrapped (text : str) (p : Z) (spans : list ErrorSpan) : str :=
  match spans with
  | [] => slice text (Some p) None
  | e :: spans' =>
      let start := offset e in
      let end_ := start + err_length e in
      slice text (Some p) (Some start)
        ++ span_open ++ slice text (Some start) (Some end_) ++ span_close
        ++ wrapped text end_ spans'
  end.

(** Spans read from left to right between [p] and [n]: each starts where
    the one before it ends, or later; the last ends at [n] at most. *)
Fixpoint asc_chain (p : Z) (l : list ErrorSpan) (n : Z) : Prop :=
  match l with
  | [] => p <= n
  | e :: l' =>
      p <= offset e /\ 0 <= err_length e
      /\ asc_chain (offset e + err_length e) l' n
  end.

(** The grammar client. *)

(** The failures the client is specified against. A payload is malformed
    when it is not JSON, or when reading the records out of it raises. *)
Inductive failure (text : str) : post_outcome -> Prop :=
| network_error : failure text ConnectionFailed
| timeout : failure text TimedOut
| error_status s b : 400 <= s < 600 -> failure text (Responded s b)
| not_json s : failure text (Responded s None)
| malformed_payload s j e :
    read_records text j = Raise e ->
    failure text (Responded s (Some j)).

(** The matches of a payload, in the backend's order. *)
Definition payload_matches (j : json) : result (list json) :=
  matches <- py_get j (cp "matches") (JArr []) ;;
  py_iter matches.

(** The suggestions of a match, all of them, in the backend's order. *)
Definition backend_values (match_ : json) : result (list json) :=
  rs <- py_get match_ (cp "replacements") (JArr []) ;;
  rs <- py_iter rs ;;
  for_each (fun r => py_getitem r (cp "value")) rs.

(** An integer field of a match. *)
Definition int_field (match_ : json) (k : str) : result Z :=
  v <- py_getitem match_ k ;; as_int v.

(** What ties a returned record to the match it was made from. *)
Definition record_of (text : str) (match_ : json) (r : ErrorSpan) : Prop :=
  (exists vals, backend_values match_ = Ok vals /\ replacements r = take 3 vals)
  /\ (List.length (replacements r) <= 3)%nat
  /\ int_field match_ (cp "offset") = Ok (offset r)
  /\ int_field match_ (cp "length") = Ok (err_length r)
  /\ bad_word r = slice text (Some (offset r)) (Some (offset r + err_length r))
  /\ (0 <= offset r -> 0 <= err_length r ->
      offset r + err_length r <= len text ->
      bad_word r = take (Z.to_nat (err_length r)) (drop (Z.to_nat (offset r)) text)
      /\ len (bad_word r) = err_length r).

(** A payload with one match, four suggestions long. *)
Definition sample_payload (o l : Z) : json :=
  JObj [(cp "matches",
         JArr [JObj [(cp "offset", JInt o); (cp "length", JInt l);
                     (cp "replacements",
                      JArr [JObj [(cp "value", JStr (cp "w"))];
                            JObj [(cp "value", JStr (cp "x"))];
                            JObj [(cp "value", JStr (cp "y"))];
                            JObj [(cp "value", JStr (cp "z"))]])]])].


(** The section parser. *)

(** The characters on which [lower_latin] below is what [str.lower] does:
    Basic Latin, Latin-1, and the Vietnamese letters outside them. *)
Definition latin_domain (c : N) : bool :=
  ((c <? 256)
   || (258 <=? c) && (c <=? 259) || (272 <=? c) && (c <=? 273)
   || (296 <=? c) && (c <=? 297) || (360 <=? c) && (c <=? 361)
   || (416 <=? c) && (c <=? 417) || (431 <=? c) && (c <=? 432)
   || (7840 <=? c) && (c <=? 7929))%N.

(** A lowering to run the parser with. It is not [str.lower]: it maps the
    characters of [latin_domain] as [str.lower] does, one by one, and
    leaves every other character as it is. The properties below take
    [str.lower] as a parameter; what they assume of it is [lower_spec]. *)
Definition lower_latin_char (c : N) : N :=
  (if (65 <=? c) && (c <=? 90) then c + 32
   else if (192 <=? c) && (c <=? 222) && negb (c =? 215) then c + 32
   else if (c =? 258) || (c =? 272) || (c =? 296) || (c =? 360)
           || (c =? 416) || (c =? 431) then c + 1
   else if (7840 <=? c) && (c <=? 7929) && N.even c then c + 1
   else c)%N.

Definition lower_latin (s : str) : str := List.map lower_latin_char s.

(** What is assumed of [str.lower]: a prefix made of characters of
    [latin_domain] is lowered character by character, as [lower_latin]
    does, whatever follows it; the rest of the result is left open. None
    of these characters is one whose lowering depends on its neighbours
    or yields more than one character. *)
Definition lower_spec (lower : str -> str) : Prop :=
  forall a b,
    forallb latin_domain a = true ->
    exists b', lower (a ++ b) = lower_latin a ++ b' /\ (b = [] -> b' = []).

(** The section keys, in the map's iteration order. *)
Definition keys (smap : section_map_t) : list str := List.map fst smap.

(** Some keyword of the list is, lower-cased, a prefix of the normalized
    line. *)
Definition hit (lower : str -> str) (norm_line : str) (keywords : list str) : Prop :=
  exists kw, In kw keywords /\ lower kw `prefix_of` norm_line.

(** The section a raw line opens, if any. *)
Definition opens (lower : str -> str) (smap : section_map_t) (line : str)
  : option str :=
  find_section lower smap (normalize lower (strip line)).

(** The dictionary has an entry for every section key, and the cursor, when
    set, is a section key. *)
Definition consistent (smap : section_map_t) (st : state) : Prop :=
  (forall k, In k (keys smap) -> is_Some (parsed_data st !! k))
  /\ (forall k, current_section st = Some k -> In k (keys smap)).

(** One ["Key: value"] line per section, in the map's order. *)
Definition render_line (value : str -> str) (k : str) : str :=
  k ++ cp ": " ++ value k.
Definition render_lines (smap : section_map_t) (value : str -> str) : str :=
  flat_map (fun k => render_line value k ++ [newline]) (keys smap).

(** [parsed_data.get(k, "")]. *)
Definition value_of (m : gmap str str) (k : str) : str := default [] (m !! k).

(** A string that starts with a character [strip] keeps. *)
Definition nsp_head (s : str) : Prop :=
  exists c s', s = c :: s' /\ isspace c = false.

(** Stripped, non-empty, on one line. *)
Definition solid (c : str) : Prop :=
  nsp_head c /\ nsp_head (rev c) /\ contains newline c = false.

(** What the parser accumulates for a section: nothing, or stripped pieces
    each followed by one space. *)
Definition tidy (v : str) : Prop :=
  v = [] \/ exists c, v = c ++ [space] /\ solid c.

(** The dictionary has exactly the section keys, each with a tidy value. *)
Definition tidy_data (smap : section_map_t) (d : gmap str str) : Prop :=
  (forall k, is_Some (d !! k) <-> In k (keys smap))
  /\ (forall k v, d !! k = Some v -> tidy v).

(** A tidy dictionary, and a cursor that, when set, is a section key. *)
Definition tidy_state (smap : section_map_t) (st : state) : Prop :=
  tidy_data smap (parsed_data st)
  /\ (forall k, current_section st = Some k -> In k (keys smap)).

(** A section key whose own ["Key: ..."] line opens its section. *)
Definition key_ok (lower : str -> str) (smap : section_map_t) (k : str) : Prop :=
  nsp_head k
  /\ contains colon k = false /\ contains newline k = false
  /\ contains star k = false /\ contains dash k = false
  /\ contains hash k = false
  /\ (forall z, find_section lower smap (lower k ++ colon :: z) = Some k).

(** Two sections whose keywords share a prefix. *)
Definition shared_prefix_map : section_map_t :=
  [ (cp "First", [cp "Sum"]); (cp "Second", [cp "Summary"]) ].


(** Further vocabulary. *)

(** What a stripped piece of text adds to a section: itself and a space,
    or nothing when it is empty. *)
Definition piece (p : str) : str :=
  match p with
  | [] => []
  | _ :: _ => p ++ [space]
  end.

(** The label of a line ["- Label: ..."] of [output_structure]. *)
Definition label_of_line (line : str) : str :=
  from_option id [] (split1 colon (drop 2 (strip line)) !! 0%nat).

(** The labels the prompt asks for, in order. *)
Definition prompt_labels (vietsub check_ai : bool) : list str :=
  List.map label_of_line
    (List.filter (fun l => match strip l with [] => false | _ => true end)
       (split newline (output_structure vietsub check_ai))).

(** An answer in the format asked for: one line ["- Label: content"] per
    label. *)
Definition response_line (content : str -> str) (label : str) : str :=
  cp "- " ++ label ++ cp ": " ++ content label.
Definition response (labels : list str) (content : str -> str) : str :=
  flat_map (fun l => response_line content l ++ [newline]) labels.

(** A label whose line opens section [k]. *)
Definition label_ok (lower : str -> str) (smap : section_map_t)
    (lk : str * str) : Prop :=
  nsp_head (fst lk)
  /\ contains colon (fst lk) = false /\ contains newline (fst lk) = false
  /\ contains star (fst lk) = false /\ contains dash (fst lk) = false
  /\ contains hash (fst lk) = false
  /\ (forall z, find_section lower smap (lower (fst lk) ++ colon :: z)
                = Some (snd lk)).

(** What the line of one label leaves in the dictionary. *)
Definition fill (content : str -> str) (d : gmap str str) (lk : str * str)
  : gmap str str :=
  <[snd lk := piece (strip (content (fst lk)))]> d.

(** How often a character occurs. *)
Fixpoint count_char (c : N) (s : str) : Z :=
  match s with
  | [] => 0
  | x :: s' => (if N.eqb x c then 1 else 0) + count_char c s'
  end.

(** A [str] value. *)
Definition is_str (v : json) : Prop := exists s, v = JStr s.


(** * Properties *)

(** ** The highlighter *)

Section SliceFacts.
Lemma slice_prefix (s : str) (b : nat) :
  (b <= List.length s)%nat -> slice s None (Some (Z.of_nat b)) = take b s.
Proof.
  intros Hb. unfold slice, clamp_index, len; simpl.
  destruct (Z.ltb_spec (Z.of_nat b) 0); [lia|].
  rewrite Z.min_l by lia. rewrite Z.sub_0_r, Nat2Z.id. reflexivity.
Qed.

Lemma slice_suffix (s : str) (a : nat) :
  (a <= List.length s)%nat -> slice s (Some (Z.of_nat a)) None = drop a s.
Proof.
  intros Ha. unfold slice, clamp_index, len; simpl.
  destruct (Z.ltb_spec (Z.of_nat a) 0); [lia|].
  rewrite Z.min_l by lia. rewrite Nat2Z.id.
  apply take_ge. rewrite length_drop. lia.
Qed.

Lemma slice_middle (s : str) (a n : nat) :
  (a + n <= List.length s)%nat ->
  slice s (Some (Z.of_nat a)) (Some (Z.of_nat a + Z.of_nat n)) = take n (drop a s).
Proof.
  intros Ha. unfold slice, clamp_index, len; simpl.
  destruct (Z.ltb_spec (Z.of_nat a) 0); [lia|].
  destruct (Z.ltb_spec (Z.of_nat a + Z.of_nat n) 0); [lia|].
  rewrite !Z.min_l by lia. rewrite Nat2Z.id.
  replace (Z.to_nat (Z.of_nat a + Z.of_nat n - Z.of_nat a)) with n by lia.
  reflexivity.
Qed.
End SliceFacts.

Lemma strips_to_app_l n u s t : strips_to n s t -> strips_to n (u ++ s) (u ++ t).
Proof. intros H. induction u as [|c u IH]; simpl; [exact H|]. by constructor. Qed.

Lemma strips_to_eq n s t t' : strips_to n s t -> t = t' -> strips_to n s t'.
Proof. by intros H <-. Qed.

Lemma strips_to_len n s t : strips_to n s t -> len s = len t + markup_overhead * Z.of_nat n.
Proof.
  unfold len. induction 1 as [|n c s t _ IH|n seg s t _ IH].
  - reflexivity.
  - simpl length. lia.
  - rewrite !length_app. change (List.length span_open) with 28%nat.
    change (List.length span_close) with 7%nat. change markup_overhead with 35 in *. lia.
Qed.

(** One pass of the loop keeps the text below [p] untouched. *)
Lemma splice_below (text tail : str) (p : nat) (e : ErrorSpan) :
  (p <= List.length text)%nat ->
  0 <= offset e -> 0 <= err_length e -> offset e + err_length e <= Z.of_nat p ->
  let o := Z.to_nat (offset e) in
  let l := Z.to_nat (err_length e) in
  splice (take p text ++ tail) e
  = take o text ++ span_open ++ take l (drop o text) ++ span_close
      ++ take (p - (o + l)) (drop (o + l) text) ++ tail.
Proof.
  intros Hp Ho Hl Hol o l. unfold splice.
  assert (Eo : offset e = Z.of_nat o) by lia.
  assert (El : err_length e = Z.of_nat l) by lia.
  rewrite Eo, El.
  assert (Hlen : List.length (take p text) = p) by (rewrite length_take; lia).
  rewrite slice_prefix by (rewrite length_app; lia).
  rewrite slice_middle by (rewrite length_app; lia).
  replace (Z.of_nat o + Z.of_nat l) with (Z.of_nat (o + l)) by lia.
  rewrite slice_suffix by (rewrite length_app; lia).
  rewrite take_app_le by (rewrite Hlen; lia). rewrite take_take.
  replace (o `min` p)%nat with o by lia.
  rewrite !drop_app_le by (rewrite Hlen; lia).
  rewrite take_app_le by (rewrite length_drop, Hlen; lia).
  rewrite (take_drop_commute text (p - (o + l)) (o + l)).
  replace (o + l + (p - (o + l)))%nat with p by lia.
  rewrite (take_drop_commute (take p text) l o), take_take.
  replace ((o + l) `min` p)%nat with (o + l)%nat by lia.
  rewrite <- take_drop_commute.
  by rewrite <- !app_assoc.
Qed.

Lemma chain_strips (text : str) (es : list ErrorSpan) :
  forall (p : nat) (tail : str) (k : nat),
    (p <= List.length text)%nat ->
    chain (Z.of_nat p) es ->
    strips_to k tail (drop p text) ->
    strips_to (k + List.length es) (spliced (take p text ++ tail) es) text.
Proof.
  unfold spliced.
  induction es as [|e es IH]; intros p tail k Hp Hch Hs; simpl.
  - rewrite Nat.add_0_r. rewrite <- (take_drop p text) at 2.
    by apply strips_to_app_l.
  - destruct Hch as (Ho & Hl & Hol & Hch).
    rewrite splice_below by assumption.
    set (o := Z.to_nat (offset e)) in *. set (l := Z.to_nat (err_length e)) in *.
    replace (k + S (List.length es))%nat with (S k + List.length es)%nat by lia.
    apply IH.
    + lia.
    + by replace (Z.of_nat o) with (offset e) by lia.
    + eapply strips_to_eq.
      * apply strips_wrap, strips_to_app_l, Hs.
      * rewrite <- (drop_drop text l o), app_assoc, take_take_drop.
        replace (l + (p - (o + l)))%nat with (p - o)%nat by lia.
        replace (drop p text) with (drop (p - o) (drop o text))
          by (rewrite drop_drop; f_equal; lia).
        apply take_drop.
Qed.

Section SortFacts.
Context {A : Type} (key : A -> Z).

Lemma insert_desc_perm x l : Permutation (insert_desc key x l) (x :: l).
Proof.
  induction l as [|y l IH]; simpl; [done|].
  destruct (key x <? key y); [|done].
  rewrite IH. apply perm_swap.
Qed.

Lemma sort_desc_perm l : Permutation (sort_desc key l) l.
Proof.
  induction l as [|x l IH]; simpl; [done|].
  by rewrite insert_desc_perm, IH.
Qed.

Lemma insert_desc_sorted x l :
  StronglySorted (desc key) l -> StronglySorted (desc key) (insert_desc key x l).
Proof.
  induction 1 as [|y l Hs IH Hy]; simpl.
  - repeat constructor.
  - destruct (Z.ltb_spec (key x) (key y)).
    + constructor; [exact IH|].
      rewrite insert_desc_perm. constructor; [unfold desc; lia | exact Hy].
    + constructor; [by constructor|].
      constructor; [exact H|].
      eapply Forall_impl; [exact Hy|]. unfold desc. intros; lia.
Qed.

Lemma sort_desc_sorted l : StronglySorted (desc key) (sort_desc key l).
Proof.
  induction l; simpl; [constructor | by apply insert_desc_sorted].
Qed.

(** A list already in descending order is left as it is. *)
Lemma sort_desc_id l : StronglySorted (desc key) l -> sort_desc key l = l.
Proof.
  induction 1 as [|x l Hs IH Hx]; simpl; [done|].
  rewrite IH. destruct l as [|y l]; simpl; [done|].
  inversion Hx; subst. unfold desc in *.
  destruct (Z.ltb_spec (key x) (key y)); [lia | done].
Qed.

Lemma desc_nodup_strict l :
  StronglySorted (desc key) l -> NoDup (List.map key l) -> StronglySorted (sdesc key) l.
Proof.
  induction 1 as [|x l Hs IH Hx]; simpl; intros Hnd; [constructor|].
  inversion Hnd as [|? ? Hnotin Hnd']; subst.
  constructor; [by apply IH|].
  rewrite Forall_forall in *. intros y Hy.
  specialize (Hx y Hy). unfold desc, sdesc in *.
  assert (key y <> key x); [|lia].
  intros E. apply Hnotin. rewrite <- E.
  apply list_elem_of_In, in_map. by apply list_elem_of_In.
Qed.

Lemma sort_desc_strict l :
  NoDup (List.map key l) -> StronglySorted (sdesc key) (sort_desc key l).
Proof.
  intros Hnd. apply desc_nodup_strict; [apply sort_desc_sorted|].
  by rewrite (Permutation_map key (sort_desc_perm l)).
Qed.

Lemma sort_desc_unique l l' :
  NoDup (List.map key l) -> Permutation l l' ->
  sort_desc key l = sort_desc key l'.
Proof.
  intros Hnd Hp.
  apply (StronglySorted_unique_strong (sdesc key)).
  - unfold sdesc. intros; lia.
  - by apply sort_desc_strict.
  - apply sort_desc_strict. by rewrite <- (Permutation_map key Hp).
  - by rewrite !sort_desc_perm.
Qed.
End SortFacts.

Lemma disjoint_sym a b : disjoint a b -> disjoint b a.
Proof. unfold disjoint. tauto. Qed.

Lemma pairwise_disjoint_perm l l' :
  Permutation l l' -> pairwise_disjoint l -> pairwise_disjoint l'.
Proof.
  induction 1 as [|x l l' Hp IH|x y l|l l' l'' _ IH1 _ IH2]; simpl.
  - done.
  - intros [Hx Hl]. split; [by rewrite <- Hp | by apply IH].
  - intros [Hy [Hx Hl]]. inversion Hy as [|? ? Hyx Hy']; subst.
    repeat split; try done. constructor; [by apply disjoint_sym | done].
  - auto.
Qed.

Lemma sorted_chain (l : list ErrorSpan) :
  StronglySorted (desc offset) l -> pairwise_disjoint l ->
  forall p,
    Forall (fun e => 0 <= offset e /\ 0 < err_length e
                     /\ offset e + err_length e <= p) l ->
    chain p l.
Proof.
  induction 1 as [|e l Hs IH He]; simpl; intros Hd p Hb; [done|].
  destruct Hd as [Hed Hd]. inversion Hb as [|? ? (Ho & Hl & Hol) Hb']; subst.
  repeat split; try lia. apply IH; [done|].
  rewrite Forall_forall in *. intros b Hbin.
  specialize (He b Hbin). specialize (Hed b Hbin). specialize (Hb' b Hbin).
  unfold desc, disjoint in *. lia.
Qed.

Lemma sort_desc_chain (text : str) (errors : list ErrorSpan) :
  Forall (within text) errors -> pairwise_disjoint errors ->
  chain (len text) (sort_desc offset errors).
Proof.
  intros Hw Hd. apply sorted_chain.
  - apply sort_desc_sorted.
  - eapply pairwise_disjoint_perm; [|exact Hd]. symmetry. apply sort_desc_perm.
  - rewrite sort_desc_perm. exact Hw.
Qed.

Lemma spliced_strips (text : str) (errors : list ErrorSpan) :
  Forall (within text) errors -> pairwise_disjoint errors ->
  strips_to (List.length errors) (spliced text (sort_desc offset errors)) text.
Proof.
  intros Hw Hd.
  pose proof (chain_strips text (sort_desc offset errors)
                (List.length text) [] 0%nat) as H.
  rewrite take_ge, app_nil_r, drop_ge in H by lia.
  rewrite (Permutation_length (sort_desc_perm offset errors)) in H.
  apply H; [lia | by apply sort_desc_chain | constructor].
Qed.

Lemma replace_char_app old new s t :
  replace_char old new (s ++ t) = replace_char old new s ++ replace_char old new t.
Proof. unfold replace_char. apply flat_map_app. Qed.

Lemma replace_char_absent old new s :
  contains old s = false -> replace_char old new s = s.
Proof.
  unfold replace_char, contains. induction s as [|c s IH]; simpl; [done|].
  rewrite N.eqb_sym. destruct (N.eqb c old); simpl; [done|].
  intros H. by rewrite IH.
Qed.

Lemma strips_to_replace n s t :
  strips_to n s t ->
  strips_to n (replace_char newline br s) (replace_char newline br t).
Proof.
  induction 1 as [|n c s t _ IH|n seg s t _ IH].
  - constructor.
  - change (c :: s) with ([c] ++ s). change (c :: t) with ([c] ++ t).
    rewrite !replace_char_app. by apply strips_to_app_l.
  - rewrite !replace_char_app.
    rewrite (replace_char_absent _ _ span_open), (replace_char_absent _ _ span_close)
      by reflexivity.
    by constructor.
Qed.

Lemma asc_chain_le p l n : asc_chain p l n -> p <= n.
Proof.
  revert p. induction l as [|e l IH]; simpl; intros p; [done|].
  intros (Hp & Hl & Hc). specialize (IH _ Hc). lia.
Qed.

Lemma slice_between (s : str) (a b : nat) :
  (a <= b)%nat -> (b <= List.length s)%nat ->
  slice s (Some (Z.of_nat a)) (Some (Z.of_nat b)) = take (b - a) (drop a s).
Proof.
  intros Hab Hb.
  replace (Z.of_nat b) with (Z.of_nat a + Z.of_nat (b - a)) by lia.
  apply slice_middle. lia.
Qed.

(** The loop, run on the spans from the last to the first, leaves the
    text below the first span as it is and wraps each segment. *)
Lemma spliced_wrapped (text : str) (asc : list ErrorSpan) :
  forall p : nat,
    asc_chain (Z.of_nat p) asc (len text) ->
    spliced text (rev asc) = take p text ++ wrapped text (Z.of_nat p) asc.
Proof.
  unfold spliced.
  induction asc as [|e asc IH]; intros p Hc; simpl in Hc |- *.
  - unfold len in Hc. rewrite slice_suffix by lia. by rewrite take_drop.
  - destruct Hc as (Hp & Hl & Hc). pose proof (asc_chain_le _ _ _ Hc) as Hn.
    unfold len in Hn.
    set (o := Z.to_nat (offset e)) in *. set (l := Z.to_nat (err_length e)) in *.
    assert (Eo : offset e = Z.of_nat o) by lia.
    assert (El : err_length e = Z.of_nat l) by lia.
    rewrite fold_left_app. cbn [fold_left].
    replace (offset e + err_length e) with (Z.of_nat (o + l)) in * by lia.
    rewrite (IH (o + l)%nat Hc).
    rewrite splice_below by lia. fold o l.
    replace (o + l - (o + l))%nat with 0%nat by lia. rewrite take_0, app_nil_l.
    rewrite Eo, slice_between by lia.
    replace (Z.of_nat (o + l)) with (Z.of_nat o + Z.of_nat l) by lia.
    rewrite slice_middle by lia.
    assert (E : take o text = take p text ++ take (o - p) (drop p text)).
    { rewrite take_drop_commute. replace (p + (o - p))%nat with o by lia.
      rewrite <- (take_drop p (take o text)) at 1.
      rewrite take_take. by replace (p `min` o)%nat with p by lia. }
    rewrite E. by rewrite <- !app_assoc.
Qed.

Lemma sorted_asc_chain (l : list ErrorSpan) (n : Z) :
  StronglySorted (ascending offset) l -> pairwise_disjoint l ->
  forall p,
    p <= n ->
    Forall (fun e => p <= offset e /\ 0 < err_length e
                     /\ offset e + err_length e <= n) l ->
    asc_chain p l n.
Proof.
  induction 1 as [|e l Hs IH He]; simpl; intros Hd p Hp Hb; [done|].
  destruct Hd as [Hed Hd]. inversion Hb as [|? ? (Ho & Hl & Hol) Hb']; subst.
  repeat split; try lia. apply IH; [done|lia|].
  rewrite Forall_forall in *. intros b Hbin.
  specialize (He b Hbin). specialize (Hed b Hbin). specialize (Hb' b Hbin).
  unfold ascending, disjoint in *. lia.
Qed.

Lemma disjoint_nodup (l : list ErrorSpan) :
  Forall (fun e => 0 < err_length e) l -> pairwise_disjoint l ->
  NoDup (List.map offset l).
Proof.
  induction 1 as [|e l He Hl IH]; simpl; [constructor|].
  intros [Hed Hd]. constructor; [|by apply IH].
  intros Hin. apply list_elem_of_In, in_map_iff in Hin as (b & Eb & Hb).
  rewrite Forall_forall in Hed. specialize (Hed b (proj2 (list_elem_of_In _ _) Hb)).
  assert (0 < err_length b).
  { rewrite Forall_forall in Hl. apply Hl. by apply list_elem_of_In. }
  unfold disjoint in Hed. lia.
Qed.

Lemma sorted_rev (l : list ErrorSpan) :
  StronglySorted (ascending offset) l -> StronglySorted (desc offset) (rev l).
Proof.
  induction 1 as [|e l Hs IH He]; simpl; [constructor|].
  apply StronglySorted_app_2; [|exact IH|repeat constructor].
  intros x y Hx Hy%list_elem_of_singleton. subst y.
  apply list_elem_of_In, in_rev, list_elem_of_In in Hx.
  rewrite Forall_forall in He. apply (He x Hx).
Qed.

Lemma sort_desc_ascending (errors asc : list ErrorSpan) :
  Forall (fun e => 0 < err_length e) errors -> pairwise_disjoint errors ->
  Permutation asc errors -> StronglySorted (ascending offset) asc ->
  sort_desc offset errors = rev asc.
Proof.
  intros Hl Hd Hp Hs.
  rewrite <- (sort_desc_id offset (rev asc)) by by apply sorted_rev.
  apply sort_desc_unique; [by apply disjoint_nodup|].
  rewrite <- Hp. apply Permutation_rev.
Qed.

(** C2, as the code has it. For every text and every sequence of pairwise
    non-overlapping spans of the data model that lie within the text, the
    sequence being non-empty or the text free of newlines, the output is the
    shown text with one wrapper around each span's segment: its length is
    the length of the shown text plus [markup_overhead] (35) per span,
    removing the inserted wrappers yields the shown text exactly, and the
    wrappers sit at the spans: with the spans read in ascending order of
    offset, the output is [wrapped text 0 spans] with every newline
    replaced by [<br>]. The shown text is the text with every newline
    replaced by [<br>]; it is the original text when that contains no
    newline. *)
Theorem highlight_strips_to_shown (text : str) (errors : list ErrorSpan) :
  Forall (within text) errors -> pairwise_disjoint errors ->
  errors <> [] \/ contains newline text = false ->
  let out := fst (render_simple_highlight text errors) in
  let shown := replace_char newline br text in
  len out = len shown + markup_overhead * Z.of_nat (List.length errors)
  /\ strips_to (List.length errors) out shown
  /\ (contains newline text = false -> shown = text)
  /\ (forall asc,
        Permutation asc errors -> StronglySorted (ascending offset) asc ->
        out = replace_char newline br (wrapped text 0 asc)).
Proof.
  intros Hw Hd Hne out shown.
  assert (Hs : strips_to (List.length errors) out shown).
  { subst out shown. destruct errors as [|e es].
    - destruct Hne as [Hne|Hnl]; [done|].
      rewrite replace_char_absent by done. simpl.
      rewrite <- (app_nil_r text). apply strips_to_app_l. constructor.
    - cbn [render_simple_highlight fst].
      by apply strips_to_replace, spliced_strips. }
  split; [by apply strips_to_len|]. split; [exact Hs|].
  split; [intros Hn; by apply replace_char_absent|].
  intros asc Hp Hsa.
  assert (Hsp : spliced text (sort_desc offset errors) = wrapped text 0 asc).
  { rewrite (sort_desc_ascending errors asc); try done.
    - rewrite (spliced_wrapped text asc 0%nat); [by rewrite take_0|].
      apply sorted_asc_chain; try done.
      + eapply pairwise_disjoint_perm; [symmetry; exact Hp | exact Hd].
      + unfold len. lia.
      + rewrite Hp. eapply Forall_impl; [exact Hw|]. unfold within.
        intros e. simpl. lia.
    - eapply Forall_impl; [exact Hw|]. unfold within. intros e. lia. }
  subst out. destruct errors as [|e es].
  - destruct Hne as [Hne|Hnl]; [done|]. apply Permutation_nil_r in Hp. subst asc.
    cbn [render_simple_highlight fst wrapped].
    change 0 with (Z.of_nat 0). rewrite (slice_suffix text 0) by lia. rewrite drop_0.
    by rewrite replace_char_absent.
  - cbn [render_simple_highlight fst]. by rewrite Hsp.
Qed.

(** C3, as the code has it. For every text and every sequence of spans
    with pairwise distinct offsets, the output is the same for every
    permutation of the sequence: the function sorts by offset itself. *)
Theorem highlight_order_invariant (text : str) (errors errors' : list ErrorSpan) :
  NoDup (List.map offset errors) -> Permutation errors errors' ->
  fst (render_simple_highlight text errors)
  = fst (render_simple_highlight text errors').
Proof.
  intros Hnd Hp. pose proof (sort_desc_unique offset _ _ Hnd Hp) as Hs.
  destruct errors as [|e es], errors' as [|e' es'].
  - reflexivity.
  - by apply Permutation_nil_cons in Hp.
  - symmetry in Hp. by apply Permutation_nil_cons in Hp.
  - cbn [render_simple_highlight fst]. by rewrite Hs.
Qed.

Lemma highlight_order_invariant_witness :
  let text := cp "abcdef" in
  let errors := [span_of 0 1; span_of 2 3] in
  let errors' := [span_of 2 3; span_of 0 1] in
  NoDup (List.map offset errors) /\ Permutation errors errors'
  /\ fst (render_simple_highlight text errors)
     = fst (render_simple_highlight text errors').
Proof.
  intros text errors errors'.
  assert (Hnd : NoDup (List.map offset errors)).
  { apply (bool_decide_unpack _). vm_compute. exact I. }
  assert (Hp : Permutation errors errors') by apply perm_swap.
  split; [exact Hnd | split; [exact Hp |]].
  exact (highlight_order_invariant text errors errors' Hnd Hp).
Defined.

(** Two spans at the same offset stay in the order given, and the output
    depends on it. *)
Lemma highlight_order_counterexample :
  let text := cp "abc" in
  let errors := [span_of 0 1; span_of 0 2] in
  let errors' := [span_of 0 2; span_of 0 1] in
  Permutation errors errors'
  /\ fst (render_simple_highlight text errors)
     <> fst (render_simple_highlight text errors').
Proof.
  split; [apply perm_swap|]. vm_compute. discriminate.
Qed.

Lemma highlight_strips_to_shown_witness :
  let text := cp "ab" ++ [newline] ++ cp "cd" in
  let errors := [span_of 0 1; span_of 3 2] in
  Forall (within text) errors /\ pairwise_disjoint errors
  /\ (errors <> [] \/ contains newline text = false)
  /\ len (fst (render_simple_highlight text errors))
     = len (replace_char newline br text) + markup_overhead * 2.
Proof.
  intros text errors.
  assert (Hw : Forall (within text) errors).
  { repeat constructor; vm_compute; discriminate. }
  assert (Hd : pairwise_disjoint errors).
  { split; [constructor; [left; vm_compute; discriminate | constructor]|].
    split; [constructor | exact I]. }
  assert (Hne : errors <> [] \/ contains newline text = false).
  { left. discriminate. }
  split; [exact Hw | split; [exact Hd | split; [exact Hne|]]].
  exact (proj1 (highlight_strips_to_shown text errors Hw Hd Hne)).
Defined.

(** One span on a text with a newline: the output is 3 characters longer
    than the text plus the wrapper. *)
Lemma highlight_length_counterexample :
  let text := cp "a" ++ [newline] in
  let errors := [span_of 0 1] in
  Forall (within text) errors /\ pairwise_disjoint errors
  /\ len (fst (render_simple_highlight text errors))
     <> len text + markup_overhead * Z.of_nat (List.length errors).
Proof.
  split; [repeat constructor; vm_compute; discriminate|].
  split; [by repeat constructor|]. vm_compute. discriminate.
Qed.

(** C9, as the code has it. The call leaves the caller's sequence of
    spans sorted in place: the same records, in descending order of offset,
    spans of equal offset in their original order. A sequence that was
    already in descending order is unchanged. The text, an immutable
    string, is passed by value. *)
Theorem highlight_sorts_argument (text : str) (errors : list ErrorSpan) :
  let after := snd (render_simple_highlight text errors) in
  after = sort_desc offset errors
  /\ Permutation errors after
  /\ StronglySorted (desc offset) after
  /\ (StronglySorted (desc offset) errors -> after = errors).
Proof.
  intros after.
  assert (E : after = sort_desc offset errors) by (subst after; by destruct errors).
  rewrite E. repeat split.
  - symmetry. apply sort_desc_perm.
  - apply sort_desc_sorted.
  - apply sort_desc_id.
Qed.

Lemma highlight_sorts_argument_witness :
  let errors := [span_of 4 1; span_of 0 2] in
  StronglySorted (desc offset) errors
  /\ snd (render_simple_highlight (cp "abcdef") errors) = errors.
Proof.
  intros errors.
  assert (Hs : StronglySorted (desc offset) errors).
  { repeat constructor. vm_compute. discriminate. }
  split; [exact Hs|].
  exact (proj2 (proj2 (proj2 (highlight_sorts_argument (cp "abcdef") errors))) Hs).
Defined.

(** A sequence given in ascending order comes back reversed. *)
Lemma highlight_reorders_argument_counterexample :
  let errors := [span_of 0 1; span_of 2 1] in
  snd (render_simple_highlight (cp "abc") errors) <> errors.
Proof. vm_compute. discriminate. Qed.

(** ** The grammar client *)

Lemma bind_ok {A B} (r : result A) (k : A -> result B) b :
  bind r k = Ok b -> exists a, r = Ok a /\ k a = Ok b.
Proof. destruct r; simpl; [eauto | discriminate]. Qed.

Lemma for_each_ok {A B} (f : A -> result B) l ys :
  for_each f l = Ok ys -> Forall2 (fun x y => f x = Ok y) l ys.
Proof.
  revert ys. induction l as [|x l IH]; simpl; intros ys H.
  - injection H as <-. constructor.
  - apply bind_ok in H as (y & Hy & H). apply bind_ok in H as (ys' & Hys & H).
    injection H as <-. constructor; auto.
Qed.

Lemma slice_within (text : str) (o l : Z) :
  0 <= o -> 0 <= l -> o + l <= len text ->
  slice text (Some o) (Some (o + l)) = take (Z.to_nat l) (drop (Z.to_nat o) text)
  /\ len (slice text (Some o) (Some (o + l))) = l.
Proof.
  intros Ho Hl Hol. unfold len in *.
  pose proof (slice_middle text (Z.to_nat o) (Z.to_nat l)) as H.
  rewrite !Z2Nat.id in H by lia. rewrite H by lia. split; [done|].
  rewrite length_take, length_drop. lia.
Qed.

Lemma error_of_match_record text m r :
  error_of_match text m = Ok r -> record_of text m r.
Proof.
  unfold error_of_match, replacement_values. intros H.
  apply bind_ok in H as (reps & Hreps & H).
  apply bind_ok in H as (off & Hoff & H).
  apply bind_ok in H as (ln & Hln & H).
  apply bind_ok in H as (o & Ho & H).
  apply bind_ok in H as (l & Hl & H).
  injection H as <-. 
  apply bind_ok in Hreps as (rs0 & Hrs0 & Hreps).
  apply bind_ok in Hreps as (rs & Hrs & Hreps).
  apply bind_ok in Hreps as (vals & Hvals & Hreps).
  injection Hreps as <-.
  unfold record_of, backend_values, int_field; cbn [offset err_length replacements bad_word].
  rewrite Hrs0, Hoff, Hln; cbn [bind]. rewrite Hrs; cbn [bind].
  repeat split; try done.
  - eauto.
  - rewrite length_take. lia.
  - by apply slice_within.
  - by apply slice_within.
Qed.

(** C10, as the code has it. When nothing raises, the records returned are
    made one per match, in the backend's order, and each record has: as
    replacements the first three (at most) of the match's suggestion values,
    in the backend's order; as offset and length the integers of the match,
    unchecked; as matched text the slice [text[offset:offset+length]], which
    is the substring at [offset, offset+length) whenever that range lies
    within the text. *)
Theorem check_text_success_records (text : str) (s : Z) (j : json)
    (errors : list ErrorSpan) :
  check_text_body text (Responded s (Some j)) = Ok errors ->
  check_text text (Responded s (Some j)) = Ok errors
  /\ exists matches,
       payload_matches j = Ok matches
       /\ Forall2 (record_of text) matches errors.
Proof.
  intros H. split; [unfold check_text; by rewrite H|].
  unfold check_text_body in H. cbn [requests_post bind] in H.
  apply bind_ok in H as (_ & _ & H). cbn [response_json body bind] in H.
  unfold read_records in H.
  apply bind_ok in H as (ms0 & Hms0 & H).
  apply bind_ok in H as (ms & Hms & H).
  exists ms. split.
  - unfold payload_matches. rewrite Hms0. exact Hms.
  - apply for_each_ok in H. eapply Forall2_impl; [exact H|].
    intros m r. apply error_of_match_record.
Qed.

Lemma check_text_success_records_witness :
  let text := cp "abc" in
  let o := Responded 200 (Some (sample_payload 1 2)) in
  let r := {| offset := 1; err_length := 2;
              replacements := [JStr (cp "w"); JStr (cp "x"); JStr (cp "y")];
              bad_word := cp "bc" |} in
  check_text_body text o = Ok [r] /\ check_text text o = Ok [r].
Proof.
  intros text o r.
  assert (H : check_text_body text o = Ok [r]) by (vm_compute; reflexivity).
  split; [exact H|].
  exact (proj1 (check_text_success_records text 200 (sample_payload 1 2) [r] H)).
Defined.

(** The client does not check a span against the text: offset 2 and
    length 5 on a text of length 3 are returned as they came. *)
Lemma check_text_span_bound_counterexample :
  let text := cp "abc" in
  let o := Responded 200 (Some (sample_payload 2 5)) in
  exists r, check_text text o = Ok [r]
            /\ ~ (offset r + err_length r <= len text).
Proof.
  eexists. split; [vm_compute; reflexivity|]. vm_compute. intros H. by apply H.
Qed.

Lemma check_text_never_raises text o : exists errors, check_text text o = Ok errors.
Proof. unfold check_text. destruct (check_text_body text o); simpl; eauto. Qed.

(** C4, as the code has it. [check_text] never raises, and on a failure
    (network error, timeout, a 4xx or 5xx status, a body that is not JSON, a
    payload the records cannot be read from) it returns the empty
    sequence. *)
Theorem check_text_fails_open (text : str) (o : post_outcome) :
  (exists errors, check_text text o = Ok errors)
  /\ (failure text o -> check_text text o = Ok []).
Proof.
  split; [apply check_text_never_raises|].
  unfold check_text, check_text_body.
  destruct 1 as [| |s b Hs|s|s j e He]; cbn [requests_post bind try_except].
  - reflexivity.
  - reflexivity.
  - unfold raise_for_status; cbn [status_code].
    replace (400 <=? s) with true by (symmetry; apply Z.leb_le; lia).
    replace (s <? 600) with true by (symmetry; apply Z.ltb_lt; lia).
    reflexivity.
  - destruct (raise_for_status _); reflexivity.
  - destruct (raise_for_status _); [|reflexivity].
    cbn [response_json body bind]. by rewrite He.
Qed.

(** One unreadable match discards the records read before it. *)
Example check_text_discards_partial_results :
  check_text (cp "abc")
    (Responded 200
       (Some (JObj [(cp "matches",
                     JArr [JObj [(cp "offset", JInt 0); (cp "length", JInt 1)];
                           JObj [(cp "offset", JInt 1)]])])))
  = Ok [].
Proof. reflexivity. Qed.

Lemma check_text_fails_open_witness :
  let text := cp "abc" in
  let o := Responded 503 None in
  failure text o /\ check_text text o = Ok [].
Proof.
  intros text o.
  assert (H : failure text o) by (apply error_status; lia).
  split; [exact H|]. exact (proj2 (check_text_fails_open text o) H).
Defined.

(** [raise_for_status] lets a 3xx status through: a 300 response with a
    readable payload yields its records. *)
Lemma check_text_non_2xx_counterexample :
  let text := cp "abc" in
  let s := 300 in
  let o := Responded s (Some (sample_payload 1 2)) in
  ~ (200 <= s < 300) /\ check_text text o <> Ok [].
Proof. split; [lia | vm_compute; discriminate]. Qed.

(** ** The section parser *)

Lemma startswith_prefix (s p : str) : startswith s p = true <-> p `prefix_of` s.
Proof.
  revert s. induction p as [|a p IH]; intros s; simpl.
  - split; [intros _; apply prefix_nil | done].
  - destruct s as [|b s].
    + split; [done|]. intros [r Hr]. discriminate.
    + rewrite andb_true_iff, N.eqb_eq, IH. split.
      * intros [-> Hp]. by apply prefix_cons.
      * intros [r Hr]. injection Hr as -> ->. split; [done|]. by exists r.
Qed.

Section ParserFacts.
Variable lower : str -> str.

Lemma keyword_hit_spec norm kws : keyword_hit lower norm kws = true <-> hit lower norm kws.
Proof.
  unfold keyword_hit, hit. rewrite existsb_exists.
  split; intros (kw & Hin & H); exists kw; (split; [done|]); by apply startswith_prefix.
Qed.

Lemma find_section_spec smap norm k :
  find_section lower smap norm = Some k <->
  exists before kws after,
    smap = before ++ (k, kws) :: after
    /\ hit lower norm kws
    /\ Forall (fun s => ~ hit lower norm (snd s)) before.
Proof.
  induction smap as [|[k' kws'] smap IH]; simpl.
  - split; [done|]. intros (b & ? & ? & H & _). by destruct b.
  - destruct (keyword_hit lower norm kws') eqn:E.
    + apply keyword_hit_spec in E. split.
      * intros [= <-]. exists [], kws', smap. by repeat split.
      * intros (b & kws & a & Hs & Hh & Hb). destruct b as [|[k0 kws0] b].
        -- by injection Hs as -> _ _.
        -- injection Hs as -> -> _. inversion Hb; subst. simpl in *. done.
    + assert (Hn : ~ hit lower norm kws').
      { rewrite <- keyword_hit_spec. by rewrite E. }
      rewrite IH. split.
      * intros (b & kws & a & -> & Hh & Hb).
        exists ((k', kws') :: b), kws, a. repeat split; [done|]. by constructor.
      * intros (b & kws & a & Hs & Hh & Hb). destruct b as [|[k0 kws0] b].
        -- injection Hs as -> -> _. done.
        -- injection Hs as -> -> ->. inversion Hb; subst. by exists b, kws, a.
Qed.

Lemma find_section_key smap norm k :
  find_section lower smap norm = Some k -> In k (keys smap).
Proof.
  intros (b & kws & a & -> & _)%find_section_spec.
  unfold keys. rewrite map_app. apply in_or_app. right. by left.
Qed.

Lemma split1_second sep s : contains sep s = true -> is_Some (split1 sep s !! 1%nat).
Proof.
  unfold contains. induction s as [|c s IH]; simpl; [done|].
  rewrite (N.eqb_sym sep c). destruct (N.eqb c sep); simpl.
  - by eexists.
  - intros H. destruct (IH H) as [x Hx].
    destruct (split1 sep s) as [|l ls]; [done|]. by exists x.
Qed.

Lemma dict_append_ok d k x v :
  d !! k = Some v -> dict_append d k x = Ok (<[k := v ++ x]> d).
Proof. unfold dict_append. by intros ->. Qed.

Lemma open_section_ok d k clean v :
  d !! k = Some v ->
  exists x, open_section d k clean = Ok (<[k := v ++ x]> d).
Proof.
  intros Hd. unfold open_section.
  destruct (contains colon clean) eqn:Ec.
  - destruct (split1_second _ _ Ec) as [part ->].
    destruct (strip part) as [|c cp] eqn:Es.
    + exists []. by rewrite app_nil_r, insert_id.
    + eexists. by apply dict_append_ok.
  - exists []. by rewrite app_nil_r, insert_id.
Qed.

Lemma step_opens smap st line k v :
  strip line <> [] ->
  opens lower smap line = Some k ->
  parsed_data st !! k = Some v ->
  exists x, step lower smap st line
            = Ok {| parsed_data := <[k := v ++ x]> (parsed_data st);
                    current_section := Some k |}.
Proof.
  unfold opens, step. intros Hne Ho Hd.
  destruct (strip line) as [|c cl] eqn:Es; [done|]. rewrite Ho.
  destruct (open_section_ok _ k (c :: cl) v Hd) as [x ->]. by exists x.
Qed.

Lemma step_consistent smap st line :
  consistent smap st ->
  exists st', step lower smap st line = Ok st' /\ consistent smap st'.
Proof.
  intros Hst. pose proof Hst as [Hk Hc]. unfold step.
  destruct (strip line) as [|c cl] eqn:Es; [by exists st|].
  destruct (find_section lower smap _) as [k|] eqn:Ef.
  - pose proof (find_section_key _ _ _ Ef) as Hin.
    destruct (Hk k Hin) as [v Hv].
    destruct (open_section_ok _ k (c :: cl) v Hv) as [x ->].
    eexists; split; [done|]. split; cbn [parsed_data current_section].
    + intros k' Hk'. rewrite lookup_insert. case_decide; [by eexists | by apply Hk].
    + by intros ? [= <-].
  - destruct (current_section st) as [[|c0 k]|] eqn:Ecs; cbn [truthy];
      try (by exists st).
    destruct (Hk (c0 :: k) (Hc _ eq_refl)) as [v Hv].
    rewrite (dict_append_ok _ _ _ _ Hv). eexists; split; [done|].
    split; cbn [parsed_data current_section].
    + intros k' Hk'. rewrite lookup_insert. case_decide; [by eexists | by apply Hk].
    + apply Hc.
Qed.

Lemma parse_lines_consistent smap lines st :
  consistent smap st ->
  exists st', parse_lines lower smap lines st = Ok st' /\ consistent smap st'.
Proof.
  unfold parse_lines. revert st. induction lines as [|line lines IH]; intros st Hc; simpl.
  - by exists st.
  - destruct (step_consistent smap st line Hc) as (st1 & -> & Hc1). by apply IH.
Qed.

Lemma init_consistent smap :
  consistent smap {| parsed_data := init_data smap; current_section := None |}.
Proof.
  split; cbn [parsed_data current_section]; [|done].
  intros k Hk. unfold init_data, keys in *.
  induction smap as [|[k' kws] smap IH]; simpl in *; [done|].
  rewrite lookup_insert. case_decide; [by eexists|].
  apply IH. by destruct Hk.
Qed.

Lemma parse_total smap raw : exists m, parse lower smap raw = Ok m.
Proof.
  unfold parse.
  destruct (parse_lines_consistent smap (split newline raw) _ (init_consistent smap))
    as (st & -> & _).
  by eexists.
Qed.

Lemma split_nonempty sep s : split sep s <> [].
Proof.
  destruct s as [|c s]; simpl; [done|].
  destruct (N.eqb c sep); [done|]. by destruct (split sep s).
Qed.

Lemma split_app sep a b :
  split sep (a ++ sep :: b) = split sep a ++ split sep b.
Proof.
  induction a as [|c a IH]; simpl.
  - by rewrite N.eqb_refl.
  - destruct (N.eqb c sep).
    + rewrite IH. reflexivity.
    + rewrite IH. destruct (split sep a) eqn:E; [|done].
      by apply split_nonempty in E.
Qed.

Lemma fold_each_app {A S} (f : S -> A -> result S) l1 l2 s :
  fold_each f (l1 ++ l2) s = bind (fold_each f l1 s) (fold_each f l2).
Proof.
  revert s. induction l1 as [|x l1 IH]; intros s; simpl; [done|].
  destruct (f s x); simpl; [apply IH | done].
Qed.

Lemma step_dropped smap st line :
  current_section st = None -> opens lower smap line = None ->
  step lower smap st line = Ok st.
Proof.
  unfold opens, step. intros Hc Ho.
  destruct (strip line); [done|]. by rewrite Ho, Hc.
Qed.

Lemma parse_lines_dropped smap st lines :
  current_section st = None ->
  Forall (fun line => opens lower smap line = None) lines ->
  parse_lines lower smap lines st = Ok st.
Proof.
  intros Hc. unfold parse_lines. induction 1 as [|line lines Hl _ IH]; simpl; [done|].
  by rewrite step_dropped.
Qed.

(** C6. The parser returns a map for every raw text, and lines that come
    before the first section-opening line contribute nothing: with such a
    preamble in front, the result is that of the rest alone. *)
Theorem parse_never_fails_and_drops_preamble (smap : section_map_t) :
  (forall raw, exists m, parse lower smap raw = Ok m)
  /\ (forall preamble rest,
        Forall (fun line => opens lower smap line = None) (split newline preamble) ->
        parse lower smap (preamble ++ newline :: rest) = parse lower smap rest).
Proof.
  split; [apply parse_total|].
  intros preamble rest Hp. unfold parse.
  rewrite split_app. unfold parse_lines at 1. rewrite fold_each_app.
  change (fold_each (step lower smap) (split newline preamble))
    with (parse_lines lower smap (split newline preamble)).
  by rewrite parse_lines_dropped.
Qed.

(** C8. The section a line opens is the key of the first entry of the
    keyword map, in its order, one of whose keywords is, lower-cased, a
    prefix of the normalized line; entries after it are never looked at, so
    of two sections whose keywords both match the earlier one wins. A
    non-blank line that opens a section sets the cursor to it. *)
Theorem first_matching_section_opens (smap : section_map_t) (line k : str) :
  let norm_line := normalize lower (strip line) in
  (opens lower smap line = Some k <->
   exists before keywords after,
     smap = before ++ (k, keywords) :: after
     /\ hit lower norm_line keywords
     /\ Forall (fun s => ~ hit lower norm_line (snd s)) before)
  /\ (forall st v,
        strip line <> [] -> opens lower smap line = Some k ->
        parsed_data st !! k = Some v ->
        exists st', step lower smap st line = Ok st'
                    /\ current_section st' = Some k).
Proof.
  split; [apply find_section_spec|].
  intros st v Hne Ho Hv. destruct (step_opens smap st line k v Hne Ho Hv) as [x ->].
  by eexists.
Qed.
End ParserFacts.

(** The test of the specification: a stray line before a labelled one. *)
Lemma parse_drops_preamble_witness :
  let preamble := cp "stray preamble" in
  let rest := cp "Task Response: x" in
  Forall (fun line => opens lower_latin section_map line = None)
         (split newline preamble)
  /\ parse lower_latin section_map (preamble ++ newline :: rest)
     = parse lower_latin section_map rest.
Proof.
  intros preamble rest.
  assert (H : Forall (fun line => opens lower_latin section_map line = None)
                     (split newline preamble)) by (by repeat constructor).
  split; [exact H|].
  exact (proj2 (parse_never_fails_and_drops_preamble lower_latin section_map)
               preamble rest H).
Defined.

Lemma first_matching_section_opens_witness :
  let line := cp "**Summary:** fine" in
  let st := {| parsed_data := init_data shared_prefix_map;
               current_section := None |} in
  strip line <> []
  /\ opens lower_latin shared_prefix_map line = Some (cp "First")
  /\ exists st', step lower_latin shared_prefix_map st line = Ok st'
                 /\ current_section st' = Some (cp "First").
Proof.
  intros line st.
  assert (Hne : strip line <> []) by (vm_compute; discriminate).
  assert (Ho : opens lower_latin shared_prefix_map line = Some (cp "First"))
    by reflexivity.
  assert (Hv : parsed_data st !! cp "First" = Some []) by reflexivity.
  split; [exact Hne | split; [exact Ho|]].
  exact (proj2 (first_matching_section_opens lower_latin shared_prefix_map line
                  (cp "First")) st [] Hne Ho Hv).
Defined.

(** *** What the parser needs of [str.lower] *)

Lemma lower_latin_spec : lower_spec lower_latin.
Proof.
  intros a b _. exists (lower_latin b). split.
  - apply map_app.
  - by intros ->.
Qed.

Section LowerSpec.
Variable lower : str -> str.
Hypothesis lower_ok : lower_spec lower.

Lemma lower_on_domain a : forallb latin_domain a = true -> lower a = lower_latin a.
Proof.
  intros Ha. destruct (lower_ok a [] Ha) as (b' & E & Hb).
  rewrite app_nil_r in E. rewrite E, (Hb eq_refl). apply app_nil_r.
Qed.

Lemma keyword_hit_ext (lower' : str -> str) norm kws :
  Forall (fun kw => lower kw = lower' kw) kws ->
  keyword_hit lower norm kws = keyword_hit lower' norm kws.
Proof.
  unfold keyword_hit. induction 1 as [|kw kws E _ IH]; simpl; [done|].
  by rewrite E, IH.
Qed.

Lemma find_section_ext (lower' : str -> str) smap norm :
  Forall (fun kw => lower kw = lower' kw) (concat (List.map snd smap)) ->
  find_section lower smap norm = find_section lower' smap norm.
Proof.
  induction smap as [|[k kws] smap IH]; simpl; [done|].
  intros [H1 H2]%Forall_app. rewrite (keyword_hit_ext lower') by done.
  by rewrite IH.
Qed.

Lemma section_map_keywords :
  Forall (fun kw => lower kw = lower_latin kw) (concat (List.map snd section_map)).
Proof. repeat constructor; apply lower_on_domain; reflexivity. Qed.

Lemma find_section_latin norm :
  find_section lower section_map norm = find_section lower_latin section_map norm.
Proof. apply find_section_ext, section_map_keywords. Qed.

(** On a line made of characters of [latin_domain] the loop does what it
    does with [lower_latin]. *)
Lemma step_latin st line :
  forallb latin_domain (normalize (fun s => s) (strip line)) = true ->
  step lower section_map st line = step lower_latin section_map st line.
Proof.
  intros H. unfold step. destruct (strip line) as [|c cl]; [done|].
  assert (E : normalize lower (c :: cl) = normalize lower_latin (c :: cl)).
  { unfold normalize in *. by apply lower_on_domain. }
  by rewrite E, find_section_latin.
Qed.

Lemma parse_lines_latin lines st :
  forallb (fun line => forallb latin_domain (normalize (fun s => s) (strip line)))
          lines = true ->
  parse_lines lower section_map lines st
  = parse_lines lower_latin section_map lines st.
Proof.
  unfold parse_lines. revert st.
  induction lines as [|l lines IH]; intros st; simpl; [done|].
  intros [H1 H2]%andb_true_iff. rewrite step_latin by done.
  destruct (step lower_latin section_map st l); simpl; [by apply IH | done].
Qed.

Lemma parse_latin raw :
  forallb (fun line => forallb latin_domain (normalize (fun s => s) (strip line)))
          (split newline raw) = true ->
  parse lower section_map raw = parse lower_latin section_map raw.
Proof. intros H. unfold parse. by rewrite parse_lines_latin. Qed.

(** C5. The two labelled lines of the specification's example, parsed with
    the keyword map of lines 299-307, whatever [str.lower] does outside
    [latin_domain]: the two sections get their content followed by one
    space, every other section is empty. *)
Theorem parse_two_labelled_lines :
  let raw := cp "Task Response: Good job." ++ [newline]
             ++ cp "Information Accuracy: Mostly correct." ++ [newline] in
  parse lower section_map raw
  = Ok (list_to_map
          [ (cp "Task Response", cp "Good job. ");
            (cp "Information Accuracy", cp "Mostly correct. ");
            (cp "Idea Development", []);
            (cp "Coherence", []);
            (cp "Summary", []);
            (cp "Final Evaluation", []);
            (cp "AI Plagiarism", []) ]).
Proof.
  intros raw. rewrite parse_latin by reflexivity. vm_compute. reflexivity.
Qed.
End LowerSpec.

Lemma parse_two_labelled_lines_witness :
  lower_spec lower_latin
  /\ parse lower_latin section_map
       (cp "Task Response: Good job." ++ [newline]
        ++ cp "Information Accuracy: Mostly correct." ++ [newline])
     = Ok (list_to_map
             [ (cp "Task Response", cp "Good job. ");
               (cp "Information Accuracy", cp "Mostly correct. ");
               (cp "Idea Development", []);
               (cp "Coherence", []);
               (cp "Summary", []);
               (cp "Final Evaluation", []);
               (cp "AI Plagiarism", []) ]).
Proof.
  assert (H : lower_spec lower_latin).
  { intros a b _. exists (lower_latin b). split; [apply map_app | by intros ->]. }
  split; [exact H|]. exact (parse_two_labelled_lines lower_latin H).
Defined.

(** *** What [strip] leaves *)

Lemma nsp_head_app s t : nsp_head s -> nsp_head (s ++ t).
Proof. intros (c & s' & -> & H). by exists c, (s' ++ t). Qed.

Lemma lstrip_nsp s : nsp_head s -> lstrip s = s.
Proof. intros (c & s' & -> & H). simpl. by rewrite H. Qed.

Lemma lstrip_suffix s : exists pre, s = pre ++ lstrip s.
Proof.
  induction s as [|c s [pre IH]]; simpl; [by exists []|].
  destruct (isspace c); [|by exists []].
  exists (c :: pre). simpl. by rewrite <- IH.
Qed.

Lemma lstrip_head s : lstrip s = [] \/ nsp_head (lstrip s).
Proof.
  induction s as [|c s IH]; simpl; [by left|].
  destruct (isspace c) eqn:E; [done|]. right. by exists c, s.
Qed.

Lemma lstrip_app_nsp u w : nsp_head w -> exists u', lstrip (u ++ w) = u' ++ w.
Proof.
  intros Hw. induction u as [|c u IH]; simpl.
  - exists []. by apply lstrip_nsp.
  - destruct (isspace c); [done|]. by exists (c :: u).
Qed.

Lemma strip_solid a b : nsp_head a -> nsp_head (rev b) -> strip (a ++ b) = a ++ b.
Proof.
  intros Ha Hb. unfold strip, rstrip.
  rewrite (lstrip_nsp (a ++ b)) by (by apply nsp_head_app).
  rewrite rev_app_distr, lstrip_nsp by (by apply nsp_head_app).
  by rewrite <- rev_app_distr, rev_involutive.
Qed.

Lemma strip_self c : nsp_head c -> nsp_head (rev c) -> strip c = c.
Proof.
  intros H1 H2. unfold strip, rstrip.
  rewrite (lstrip_nsp c) by done. rewrite (lstrip_nsp (rev c)) by done.
  apply rev_involutive.
Qed.

Lemma strip_trailing_space s :
  nsp_head s -> nsp_head (rev s) -> strip (s ++ [space]) = s.
Proof.
  intros H1 H2. unfold strip, rstrip.
  rewrite (lstrip_nsp (s ++ _)) by (by apply nsp_head_app).
  rewrite rev_app_distr. simpl. rewrite lstrip_nsp by done. apply rev_involutive.
Qed.

Lemma strip_keeps_head a x :
  nsp_head a -> nsp_head (rev a) -> exists y, strip (a ++ x) = a ++ y.
Proof.
  intros H1 H2. unfold strip, rstrip.
  rewrite (lstrip_nsp (a ++ x)) by (by apply nsp_head_app).
  rewrite rev_app_distr.
  destruct (lstrip_app_nsp (rev x) (rev a) H2) as [u' ->].
  exists (rev u'). by rewrite rev_app_distr, rev_involutive.
Qed.

Lemma strip_result s : strip s = [] \/ (nsp_head (strip s) /\ nsp_head (rev (strip s))).
Proof.
  unfold strip, rstrip. rewrite rev_involutive.
  destruct (lstrip_head (rev (lstrip s))) as [E|H]; [left; by rewrite E|].
  right. split; [|done].
  destruct (lstrip_suffix (rev (lstrip s))) as [pre Hpre].
  apply (f_equal (@rev N)) in Hpre. rewrite rev_involutive, rev_app_distr in Hpre.
  destruct (lstrip_head s) as [E|Hs].
  - rewrite E in H. simpl in H. by destruct H as (? & ? & ? & _).
  - rewrite Hpre in Hs. destruct H as (c & r & Hr & Hc).
    destruct (rev (lstrip (rev (lstrip s)))) as [|c1 r1] eqn:Er.
    + apply (f_equal (@rev N)) in Er. rewrite rev_involutive in Er.
      rewrite Er in Hr. done.
    + destruct Hs as (c2 & s2 & Hs2 & Hc2). injection Hs2 as <- _.
      by exists c1, r1.
Qed.

(** *** Membership of a character *)

Lemma contains_app c a b : contains c (a ++ b) = contains c a || contains c b.
Proof. apply existsb_app. Qed.

Lemma contains_rev c s : contains c (rev s) = contains c s.
Proof.
  unfold contains. induction s as [|x s IH]; simpl; [done|].
  rewrite existsb_app, IH. simpl. by rewrite orb_false_r, orb_comm.
Qed.

Lemma contains_lstrip c s : contains c s = false -> contains c (lstrip s) = false.
Proof.
  induction s as [|x s IH]; simpl; [done|].
  destruct (isspace x); [|done]. intros [_ H]%orb_false_elim. by apply IH.
Qed.

Lemma contains_strip c s : contains c s = false -> contains c (strip s) = false.
Proof.
  intros H. unfold strip, rstrip. rewrite contains_rev.
  apply contains_lstrip. rewrite contains_rev. by apply contains_lstrip.
Qed.

Lemma contains_split1 c sep s :
  contains c s = false -> Forall (fun p => contains c p = false) (split1 sep s).
Proof.
  induction s as [|x s IH]; simpl; [by repeat constructor|].
  intros [Hx Hs]%orb_false_elim.
  destruct (N.eqb x sep); [by repeat constructor|].
  specialize (IH Hs). destruct (split1 sep s) as [|l ls].
  - repeat constructor. simpl. by rewrite Hx.
  - inversion IH; subst. constructor; [|done]. simpl. by rewrite Hx.
Qed.

Lemma contains_split sep s : Forall (fun l => contains sep l = false) (split sep s).
Proof.
  induction s as [|x s IH]; simpl; [by repeat constructor|].
  destruct (N.eqb x sep) eqn:E; [by constructor|].
  destruct (split sep s) as [|l ls].
  - repeat constructor. simpl. by rewrite N.eqb_sym, E.
  - inversion IH; subst. constructor; [|done]. simpl. by rewrite N.eqb_sym, E.
Qed.

Lemma contains_here c a b : contains c (a ++ c :: b) = true.
Proof. rewrite contains_app. simpl. by rewrite N.eqb_refl, orb_true_r. Qed.

Lemma split1_at sep a b :
  contains sep a = false -> split1 sep (a ++ sep :: b) = [a; b].
Proof.
  induction a as [|x a IH]; simpl.
  - by rewrite N.eqb_refl.
  - intros [Hx Ha]%orb_false_elim. rewrite N.eqb_sym, Hx. by rewrite IH.
Qed.

Lemma split_line sep a rest :
  contains sep a = false -> split sep (a ++ sep :: rest) = a :: split sep rest.
Proof.
  induction a as [|x a IH]; simpl.
  - by rewrite N.eqb_refl.
  - intros [Hx Ha]%orb_false_elim. rewrite N.eqb_sym, Hx. by rewrite IH.
Qed.

(** *** The accumulated values stay tidy *)

Lemma tidy_append v p :
  tidy v -> p <> [] -> p = strip p -> contains newline p = false ->
  tidy (v ++ p ++ [space]).
Proof.
  intros Hv Hne Hp Hnl.
  assert (Hs : solid p).
  { destruct (strip_result p) as [E|[H1 H2]]; [congruence|].
    rewrite <- Hp in *. by repeat split. }
  right. destruct Hv as [->|(c & -> & Hc1 & Hc2 & Hc3)].
  - by exists p.
  - exists (c ++ [space] ++ p). split; [by rewrite <- !app_assoc|].
    destruct Hs as (Hp1 & Hp2 & Hp3). repeat split.
    + by apply nsp_head_app.
    + rewrite !rev_app_distr. by do 2 apply nsp_head_app.
    + rewrite !contains_app, Hc3, Hp3. reflexivity.
Qed.

Lemma tidy_data_insert smap d k v :
  tidy_data smap d -> In k (keys smap) -> tidy v -> tidy_data smap (<[k := v]> d).
Proof.
  intros [Hdom Ht] Hk Hv. split.
  - intros k'. rewrite lookup_insert. case_decide; subst; [|apply Hdom].
    split; [done | by eexists].
  - intros k' v'. rewrite lookup_insert. case_decide; subst; [by intros [= <-]|apply Ht].
Qed.

Lemma dict_append_tidy smap d k p d' :
  tidy_data smap d -> In k (keys smap) ->
  p <> [] -> p = strip p -> contains newline p = false ->
  dict_append d k (p ++ [space]) = Ok d' -> tidy_data smap d'.
Proof.
  intros Hd Hk Hne Hp Hnl. unfold dict_append.
  destruct (d !! k) as [v|] eqn:E; [|done]. intros [= <-].
  apply tidy_data_insert; [done..|]. apply tidy_append; try done.
  by apply (proj2 Hd k).
Qed.

Lemma strip_idem s : strip s = strip (strip s).
Proof.
  destruct (strip_result s) as [->|[H1 H2]]; [done|]. symmetry. by apply strip_self.
Qed.

Section TidyFacts.
Variable lower : str -> str.

Lemma step_tidy smap st line st' :
  contains newline line = false -> tidy_state smap st ->
  step lower smap st line = Ok st' -> tidy_state smap st'.
Proof.
  intros Hnl Hst. pose proof Hst as [Hd Hc]. unfold step.
  destruct (strip line) as [|c cl] eqn:Es; [by intros [= <-]|].
  assert (Hcl : contains newline (c :: cl) = false).
  { rewrite <- Es. by apply contains_strip. }
  assert (Hidem : c :: cl = strip (c :: cl)).
  { rewrite <- Es. apply strip_idem. }
  destruct (find_section lower smap _) as [k|] eqn:Ef.
  - pose proof (find_section_key _ _ _ _ Ef) as Hin.
    unfold open_section.
    destruct (contains colon (c :: cl)).
    + destruct (split1 colon (c :: cl) !! 1%nat) as [part|] eqn:Ep; [|done].
      assert (Hpart : contains newline part = false).
      { pose proof (contains_split1 newline colon _ Hcl) as HF.
        rewrite Forall_lookup in HF. by apply (HF _ _ Ep). }
      destruct (strip part) as [|c0 c'] eqn:Esp.
      * intros [= <-]. split; [done|]. by intros ? [= <-].
      * destruct (dict_append _ _ _) as [d'|] eqn:Ed; [|done].
        intros [= <-]. split; [|by intros ? [= <-]]. cbn [parsed_data].
        eapply (dict_append_tidy smap _ k (c0 :: c')); try done.
        -- rewrite <- Esp. apply strip_idem.
        -- rewrite <- Esp. by apply contains_strip.
    + intros [= <-]. split; [done|]. by intros ? [= <-].
  - destruct (current_section st) as [[|c0 k]|] eqn:Ecs; cbn [truthy];
      try (by intros [= <-]).
    destruct (dict_append _ _ _) as [d'|] eqn:Ed; [|done].
    intros [= <-]. split; [|done]. cbn [parsed_data].
    eapply (dict_append_tidy smap _ (c0 :: k) (c :: cl)); try done.
    by apply Hc.
Qed.

Lemma parse_lines_tidy smap lines st st' :
  Forall (fun l => contains newline l = false) lines -> tidy_state smap st ->
  parse_lines lower smap lines st = Ok st' -> tidy_state smap st'.
Proof.
  unfold parse_lines. intros Hl. revert st.
  induction Hl as [|line lines Hline _ IH]; intros st Hst; simpl.
  - by intros [= <-].
  - destruct (step lower smap st line) as [st1|] eqn:E1; [|done]. simpl.
    apply IH. by eapply step_tidy.
Qed.

Lemma init_data_in smap k : In k (keys smap) -> init_data smap !! k = Some [].
Proof.
  unfold init_data, keys. induction smap as [|[k' kws] smap IH]; simpl; [done|].
  intros H. rewrite lookup_insert. case_decide; [done|].
  apply IH. by destruct H.
Qed.

Lemma init_data_out smap k : ~ In k (keys smap) -> init_data smap !! k = None.
Proof.
  unfold init_data, keys. induction smap as [|[k' kws] smap IH]; simpl; [done|].
  intros H. rewrite lookup_insert. case_decide; [exfalso; auto|].
  apply IH. auto.
Qed.

Lemma init_tidy smap :
  tidy_state smap {| parsed_data := init_data smap; current_section := None |}.
Proof.
  split; [|done]. cbn [parsed_data]. split.
  - intros k. split.
    + intros [v Hv]. destruct (decide (k ∈ keys smap)) as [H|H].
      * by apply list_elem_of_In.
      * rewrite init_data_out in Hv; [done|]. by rewrite <- list_elem_of_In.
    + intros H. rewrite init_data_in by done. by eexists.
  - intros k v Hv. destruct (decide (k ∈ keys smap)) as [H|H].
    + rewrite init_data_in in Hv by (by apply list_elem_of_In).
      injection Hv as <-. by left.
    + rewrite init_data_out in Hv; [done|]. by rewrite <- list_elem_of_In.
Qed.

Lemma parse_tidy smap raw m : parse lower smap raw = Ok m -> tidy_data smap m.
Proof.
  unfold parse. destruct (parse_lines _ _ _ _) as [st|] eqn:E; [|done].
  intros [= <-]. eapply parse_lines_tidy in E; [apply E | apply contains_split | apply init_tidy].
Qed.
End TidyFacts.

(** *** Parsing the rendering of a parsed map *)

Lemma section_map_keys_ok : Forall (key_ok lower_latin section_map) (keys section_map).
Proof.
  repeat constructor; try (by do 2 eexists); intros z; reflexivity.
Qed.

Lemma section_map_keys_plain :
  Forall (fun k => forallb latin_domain k = true) (keys section_map).
Proof. by repeat constructor. Qed.

Lemma section_map_nodup : NoDup (keys section_map).
Proof. apply (bool_decide_unpack _). vm_compute. exact I. Qed.

Lemma lookup_fold_insert (f : str -> str) (ks : list str) (d : gmap str str)
    (k : str) :
  fold_left (fun d k => <[k := f k]> d) ks d !! k
  = if decide (k ∈ ks) then Some (f k) else d !! k.
Proof.
  revert d. induction ks as [|k0 ks IH]; intros d; cbn [fold_left].
  - rewrite decide_False; [done|]. apply not_elem_of_nil.
  - rewrite IH. destruct (decide (k ∈ ks)) as [H|H].
    + rewrite decide_True; [done|]. by right.
    + rewrite lookup_insert. destruct (decide (k0 = k)) as [->|Hne].
      * rewrite decide_True; [done|]. by left.
      * rewrite decide_False; [done|]. intros [->|?]%elem_of_cons; done.
Qed.

Lemma split_rendered (f : str -> str) (ks : list str) :
  Forall (fun k => contains newline (render_line f k) = false) ks ->
  split newline (flat_map (fun k => render_line f k ++ [newline]) ks)
  = List.map (render_line f) ks ++ [[]].
Proof.
  induction 1 as [|k ks Hk _ IH]; simpl; [done|].
  rewrite <- app_assoc. cbn [app]. by rewrite split_line, IH.
Qed.

Lemma tidy_no_newline v : tidy v -> contains newline v = false.
Proof.
  intros [->|(c & -> & _ & _ & H)]; [done|]. by rewrite contains_app, H.
Qed.

Section Rendered.
Variable lower : str -> str.
Hypothesis lower_ok : lower_spec lower.

(** A line that starts with a section key and a colon opens that section:
    the key and the colon are in [latin_domain], so [lower] maps them as
    [lower_latin] does whatever follows them on the line. *)
Lemma opens_rendered k x :
  In k (keys section_map) ->
  find_section lower section_map (normalize lower (k ++ colon :: x)) = Some k.
Proof.
  intros Hk.
  pose proof section_map_keys_ok as Hok. pose proof section_map_keys_plain as Hpl.
  rewrite Forall_forall in Hok, Hpl. apply list_elem_of_In in Hk.
  destruct (Hok k Hk) as (Hh & _ & _ & Hs & Hd & Hha & Hf).
  specialize (Hpl k Hk). unfold normalize.
  rewrite !replace_char_app, !(replace_char_absent _ _ k) by done.
  change (colon :: x) with ([colon] ++ x). rewrite !replace_char_app.
  change (replace_char hash [] (replace_char dash [] (replace_char star [] [colon])))
    with [colon].
  rewrite app_assoc.
  destruct (strip_keeps_head (k ++ [colon])
              (replace_char hash [] (replace_char dash [] (replace_char star [] x))))
    as [y ->].
  - by apply nsp_head_app.
  - rewrite rev_app_distr. by exists colon, (rev k).
  - destruct (lower_ok (k ++ [colon]) y) as (b' & -> & _).
    { rewrite forallb_app, Hpl. reflexivity. }
    rewrite (find_section_latin lower lower_ok).
    unfold lower_latin at 2. rewrite map_app.
    rewrite <- app_assoc. apply Hf.
Qed.

Lemma step_rendered st k v :
  In k (keys section_map) -> tidy v -> parsed_data st !! k = Some [] ->
  step lower section_map st (render_line (fun _ => v) k)
  = Ok {| parsed_data := <[k := v]> (parsed_data st); current_section := Some k |}.
Proof.
  intros Hk Hv Hd.
  assert (Hkok : key_ok lower_latin section_map k).
  { pose proof section_map_keys_ok as Hok. rewrite Forall_forall in Hok.
    by apply Hok, list_elem_of_In. }
  pose proof Hkok as (Hh & Hcol & _).
  unfold render_line. change (cp ": ") with [colon; space].
  assert (Hclean : exists r, strip (k ++ [colon; space] ++ v) = k ++ colon :: r
                             /\ strip r = strip v
                             /\ (v = [] \/ exists c, v = c ++ [space] /\ strip v = c
                                                  /\ nsp_head c)).
  { destruct Hv as [->|(c & -> & Hc1 & Hc2 & Hc3)].
    - exists []. split; [|split; [done|by left]].
      change (k ++ [colon; space] ++ []) with (k ++ [colon] ++ [space]).
      rewrite app_assoc. apply strip_trailing_space.
      + by apply nsp_head_app.
      + rewrite rev_app_distr. by exists colon, (rev k).
    - exists (space :: c).
      assert (Hsv : strip (c ++ [space]) = c) by by apply strip_trailing_space.
      split; [|split].
      + change (k ++ [colon; space] ++ c ++ [space])
          with (k ++ ([colon; space] ++ c) ++ [space]).
        rewrite app_assoc. rewrite strip_trailing_space; [reflexivity| |].
        * by apply nsp_head_app.
        * rewrite !rev_app_distr. by do 2 apply nsp_head_app.
      + rewrite Hsv. change (strip (space :: c)) with (strip c). by apply strip_self.
      + right. by exists c. }
  destruct Hclean as (r & Hclean & Hr & Hcases).
  unfold step. rewrite Hclean.
  destruct Hh as (c0 & k' & -> & Hc0). cbn [app].
  change (c0 :: k' ++ colon :: r) with ((c0 :: k') ++ colon :: r).
  rewrite opens_rendered by done.
  unfold open_section. rewrite contains_here, split1_at by done.
  cbn [lookup list_lookup]. rewrite Hr.
  destruct Hcases as [->|(c & -> & -> & (c1 & c' & -> & _))].
  - cbn [strip rstrip lstrip rev app bind]. by rewrite insert_id.
  - cbn [app]. unfold dict_append. rewrite Hd. reflexivity.
Qed.

Lemma parse_lines_rendered (f : str -> str) (ks : list str) :
  NoDup ks ->
  Forall (fun k => In k (keys section_map) /\ tidy (f k)) ks ->
  forall st,
    Forall (fun k => parsed_data st !! k = Some []) ks ->
    exists st',
      parse_lines lower section_map (List.map (render_line f) ks) st = Ok st'
      /\ parsed_data st' = fold_left (fun d k => <[k := f k]> d) ks (parsed_data st).
Proof.
  unfold parse_lines.
  induction 1 as [|k ks Hk Hnd IH]; intros Hok st Hst; simpl.
  - by exists st.
  - inversion Hok as [|? ? [Hkok Hkt] Hok']; subst.
    inversion Hst as [|? ? Hd Hst']; subst.
    change (render_line f k) with (render_line (fun _ => f k) k).
    rewrite step_rendered by done. simpl.
    apply IH; [done|]. cbn [parsed_data].
    rewrite Forall_forall in *. intros k' Hk'.
    rewrite lookup_insert_ne; [by apply Hst'|]. by intros ->.
Qed.

Lemma reparse_rendered raw m :
  parse lower section_map raw = Ok m ->
  parse lower section_map (render_lines section_map (value_of m)) = Ok m.
Proof.
  intros [Hdom Ht]%parse_tidy.
  assert (Htv : forall k, tidy (value_of m k)).
  { intros k. unfold value_of. destruct (m !! k) eqn:E; [by eapply Ht | by left]. }
  pose proof section_map_keys_ok as keys_ok.
  unfold parse, render_lines. rewrite split_rendered.
  2: { rewrite Forall_forall in *. intros k Hk.
       destruct (keys_ok k Hk) as (_ & _ & Hnl & _). unfold render_line.
       rewrite !contains_app, Hnl. by rewrite (tidy_no_newline (value_of m k)) by apply Htv. }
  unfold parse_lines. rewrite fold_each_app.
  destruct (parse_lines_rendered (value_of m) (keys section_map) section_map_nodup) with
    (st := {| parsed_data := init_data section_map; current_section := None |})
    as (st' & Hp & Hd).
  - rewrite Forall_forall in *. intros k Hk. split; [by apply list_elem_of_In | apply Htv].
  - rewrite Forall_forall. intros k Hk%list_elem_of_In. by apply init_data_in.
  - unfold parse_lines in Hp. rewrite Hp. simpl. f_equal.
    rewrite Hd. apply map_eq. intros k. rewrite lookup_fold_insert. cbn [parsed_data].
    case_decide as Hk.
    + apply list_elem_of_In, Hdom in Hk as [v Hv]. unfold value_of. by rewrite Hv.
    + rewrite init_data_out by (by rewrite <- list_elem_of_In).
      destruct (m !! k) eqn:E; [|done].
      exfalso. apply Hk, list_elem_of_In, Hdom. by eexists.
Qed.

(** C7. Rendering the parsed map as one ["Key: value"] line per section
    and parsing that again yields the same map, for any [str.lower] that
    meets [lower_spec]. This holds for the map parsed from any raw text,
    so in particular from a well-formed one. *)
Theorem reparse_rendered_same_map (raw : str) :
  exists m,
    parse lower section_map raw = Ok m
    /\ parse lower section_map (render_lines section_map (value_of m)) = Ok m.
Proof.
  destruct (parse_total lower section_map raw) as [m Hm].
  exists m. split; [done|]. by apply (reparse_rendered raw).
Qed.
End Rendered.

Lemma reparse_rendered_same_map_witness :
  lower_spec lower_latin
  /\ exists m,
       parse lower_latin section_map (cp "Summary: fine") = Ok m
       /\ parse lower_latin section_map (render_lines section_map (value_of m)) = Ok m.
Proof.
  assert (H : lower_spec lower_latin).
  { intros a b _. exists (lower_latin b). split; [apply map_app | by intros ->]. }
  split; [exact H|].
  exact (reparse_rendered_same_map lower_latin H (cp "Summary: fine")).
Defined.

(** ** Further properties *)

(** *** More on the section parser *)

Section ParserMore.
Variable lower : str -> str.

Lemma step_blank smap st line : strip line = [] -> step lower smap st line = Ok st.
Proof. unfold step. by intros ->. Qed.

Lemma parse_lines_blank smap st lines :
  Forall (fun l => strip l = []) lines -> parse_lines lower smap lines st = Ok st.
Proof.
  unfold parse_lines. induction 1 as [|l lines Hl _ IH]; simpl; [done|].
  by rewrite step_blank.
Qed.

Lemma parse_lines_app smap l1 l2 st :
  parse_lines lower smap (l1 ++ l2) st
  = bind (parse_lines lower smap l1 st) (parse_lines lower smap l2).
Proof. apply fold_each_app. Qed.

(** X1. Blank lines, wherever they stand, change nothing. *)
Theorem parse_ignores_blank_lines (smap : section_map_t) (a blank b : str) :
  Forall (fun l => strip l = []) (split newline blank) ->
  parse lower smap (a ++ newline :: blank ++ newline :: b)
  = parse lower smap (a ++ newline :: b).
Proof.
  intros Hb. unfold parse. rewrite !split_app, !parse_lines_app.
  destruct (parse_lines lower smap (split newline a) _) as [st|e]; [|done].
  cbn [bind]. rewrite parse_lines_app, parse_lines_blank by done. done.
Qed.

Lemma step_strip smap st line :
  step lower smap st (strip line) = step lower smap st line.
Proof. unfold step. by rewrite <- strip_idem. Qed.

(** X2. Only the stripped line is read. *)
Theorem parse_lines_strip (smap : section_map_t) (lines : list str) (st : state) :
  parse_lines lower smap (List.map strip lines) st
  = parse_lines lower smap lines st.
Proof.
  unfold parse_lines. revert st. induction lines as [|l lines IH]; intros st; simpl; [done|].
  rewrite step_strip. destruct (step lower smap st l); simpl; [apply IH | done].
Qed.

Lemma step_append_only smap st line st' :
  step lower smap st line = Ok st' ->
  forall k v, parsed_data st !! k = Some v ->
              exists x, parsed_data st' !! k = Some (v ++ x).
Proof.
  unfold step. intros H k v Hv.
  assert (Hsame : exists x, parsed_data st !! k = Some (v ++ x)).
  { exists []. by rewrite app_nil_r. }
  assert (Happ : forall k' x d', dict_append (parsed_data st) k' x = Ok d' ->
                                 exists y, d' !! k = Some (v ++ y)).
  { intros k' x d'. unfold dict_append.
    destruct (parsed_data st !! k') as [v'|] eqn:E; [|done]. intros [= <-].
    rewrite lookup_insert. case_decide; subst; [|done].
    rewrite E in Hv. injection Hv as ->. by exists x. }
  destruct (strip line) as [|c cl]; [by injection H as <-|].
  destruct (find_section lower smap _) as [k'|].
  - unfold open_section in H.
    destruct (contains colon (c :: cl)).
    + destruct (split1 colon (c :: cl) !! 1%nat) as [part|]; [|done].
      destruct (strip part) as [|c0 c'].
      * by injection H as <-.
      * destruct (dict_append _ _ _) as [d'|] eqn:Ed; [|done].
        injection H as <-. by eapply Happ.
    + by injection H as <-.
  - destruct (truthy (current_section st)) as [k'|]; [|by injection H as <-].
    destruct (dict_append _ _ _) as [d'|] eqn:Ed; [|done].
    injection H as <-. by eapply Happ.
Qed.

Lemma parse_lines_append_only smap lines st st' :
  parse_lines lower smap lines st = Ok st' ->
  forall k v, parsed_data st !! k = Some v ->
              exists x, parsed_data st' !! k = Some (v ++ x).
Proof.
  unfold parse_lines. revert st. induction lines as [|l lines IH]; intros st; simpl.
  - intros [= <-] k v Hv. exists []. by rewrite app_nil_r.
  - destruct (step lower smap st l) as [st1|] eqn:E1; [|done]. simpl.
    intros H k v Hv.
    destruct (step_append_only _ _ _ _ E1 k v Hv) as [x Hx].
    destruct (IH _ H k _ Hx) as [y Hy]. exists (x ++ y). by rewrite app_assoc.
Qed.

(** X3. More lines only extend what the sections hold. *)
Theorem parse_more_text_extends (smap : section_map_t) (a b : str)
    (m1 m2 : gmap str str) :
  parse lower smap a = Ok m1 ->
  parse lower smap (a ++ newline :: b) = Ok m2 ->
  forall k v, m1 !! k = Some v -> exists x, m2 !! k = Some (v ++ x).
Proof.
  unfold parse. rewrite split_app, parse_lines_app.
  destruct (parse_lines lower smap (split newline a) _) as [st1|]; [|done].
  cbn [bind]. intros [= <-].
  destruct (parse_lines lower smap (split newline b) st1) as [st2|] eqn:E2; [|done].
  cbn [bind]. intros [= <-]. by eapply parse_lines_append_only.
Qed.

Lemma truthy_some cs k : truthy cs = Some k -> cs = Some k.
Proof. destruct cs as [[|c k']|]; simpl; congruence. Qed.

Lemma step_leaves_unopened smap st line st' k :
  step lower smap st line = Ok st' ->
  opens lower smap line <> Some k ->
  parsed_data st !! k = Some [] /\ current_section st <> Some k ->
  parsed_data st' !! k = Some [] /\ current_section st' <> Some k.
Proof.
  unfold step, opens. intros H Ho [Hd Hc].
  assert (Happ : forall k' x d', k' <> k ->
             dict_append (parsed_data st) k' x = Ok d' -> d' !! k = Some []).
  { intros k' x d' Hne. unfold dict_append.
    destruct (parsed_data st !! k'); [|done]. intros [= <-].
    by rewrite lookup_insert_ne. }
  destruct (strip line) as [|c cl]; [by injection H as <-|].
  destruct (find_section lower smap _) as [k'|].
  - assert (Hne : k' <> k) by congruence.
    unfold open_section in H.
    destruct (contains colon (c :: cl)).
    + destruct (split1 colon (c :: cl) !! 1%nat) as [part|]; [|done].
      destruct (strip part) as [|c0 c'].
      * injection H as <-. split; [done|]. cbn. congruence.
      * destruct (dict_append _ _ _) as [d'|] eqn:Ed; [|done].
        injection H as <-. split; [by eapply Happ|]. cbn. congruence.
    + injection H as <-. split; [done|]. cbn. congruence.
  - destruct (truthy (current_section st)) as [k'|] eqn:Et;
      [|by injection H as <-].
    apply truthy_some in Et.
    destruct (dict_append _ _ _) as [d'|] eqn:Ed; [|done].
    injection H as <-. split; [|done].
    eapply Happ; [|exact Ed]. congruence.
Qed.

Lemma parse_unopened_empty smap raw k m :
  parse lower smap raw = Ok m ->
  In k (keys smap) ->
  Forall (fun line => opens lower smap line <> Some k) (split newline raw) ->
  m !! k = Some [].
Proof.
  unfold parse, parse_lines. intros H Hk Hl.
  assert (Hinit : parsed_data {| parsed_data := init_data smap;
                                 current_section := None |} !! k = Some []
                  /\ current_section {| parsed_data := init_data smap;
                                        current_section := None |} <> Some k).
  { split; [by apply init_data_in | done]. }
  revert H Hinit. generalize {| parsed_data := init_data smap; current_section := None |}.
  induction Hl as [|l lines Hl _ IH]; intros st; simpl.
  - intros [= <-] [Hd _]. done.
  - destruct (step lower smap st l) as [st1|] eqn:E1; [|done]. simpl.
    intros H Hst. apply (IH st1 H). by eapply step_leaves_unopened.
Qed.

(** X4. A section no line opens stays empty. *)
Theorem parse_unopened_section_empty (smap : section_map_t) (raw k : str)
    (m : gmap str str) :
  parse lower smap raw = Ok m ->
  In k (keys smap) ->
  Forall (fun line => opens lower smap line <> Some k) (split newline raw) ->
  m !! k = Some [].
Proof. apply parse_unopened_empty. Qed.

(** X5. Every value the parser returns is empty, or stripped text followed by
    one space, all on one line; and the keys are the section keys. *)
Theorem parse_values_shape (smap : section_map_t) (raw : str) (m : gmap str str) :
  parse lower smap raw = Ok m ->
  (forall k, is_Some (m !! k) <-> In k (keys smap))
  /\ (forall k v, m !! k = Some v ->
        v = [] \/ exists c, v = c ++ [space] /\ c <> [] /\ strip c = c
                            /\ contains newline c = false).
Proof.
  intros [Hdom Ht]%parse_tidy. split; [done|].
  intros k v Hv. destruct (Ht k v Hv) as [->|(c & -> & H1 & H2 & H3)]; [by left|].
  right. exists c. repeat split; try done.
  - destruct H1 as (? & ? & -> & _). done.
  - by apply strip_self.
Qed.
End ParserMore.

(** *** More on [strip] *)


Lemma lstrip_app u w :
  lstrip (u ++ w) = match lstrip u with [] => lstrip w | r => r ++ w end.
Proof.
  induction u as [|c u IH]; simpl; [by destruct (lstrip w)|].
  destruct (isspace c); [done|]. reflexivity.
Qed.

Lemma rstrip_rev z : rev (rstrip z) = lstrip (rev z).
Proof. unfold rstrip. apply rev_involutive. Qed.

Lemma rstrip_cons c z :
  rstrip (c :: z)
  = match rstrip z with
    | [] => if isspace c then [] else [c]
    | r => c :: r
    end.
Proof.
  unfold rstrip. change (rev (c :: z)) with (rev z ++ [c]).
  rewrite lstrip_app. destruct (lstrip (rev z)) as [|x r].
  - simpl. by destruct (isspace c).
  - rewrite rev_app_distr. simpl rev at 1. cbn [app].
    destruct (rev (x :: r)) eqn:E; [|done].
    apply (f_equal (@List.length N)) in E. rewrite length_rev in E. done.
Qed.

Lemma rstrip_app_head a x : nsp_head (rev a) -> rstrip (a ++ x) = a ++ rstrip x.
Proof.
  intros Ha. unfold rstrip. rewrite rev_app_distr, lstrip_app.
  destruct (lstrip (rev x)) as [|c r] eqn:E.
  - rewrite lstrip_nsp by done. change (rev []) with (@nil N).
    by rewrite rev_involutive, app_nil_r.
  - by rewrite rev_app_distr, rev_involutive.
Qed.

Lemma strip_app_head a x :
  nsp_head a -> nsp_head (rev a) -> strip (a ++ x) = a ++ rstrip x.
Proof.
  intros H1 H2. unfold strip. rewrite lstrip_nsp by (by apply nsp_head_app).
  by apply rstrip_app_head.
Qed.

Lemma lstrip_rstrip z : lstrip (rstrip z) = rstrip (lstrip z).
Proof.
  induction z as [|c z IH]; [done|].
  rewrite rstrip_cons. simpl lstrip at 2.
  destruct (isspace c) eqn:Ec.
  - destruct (rstrip z) as [|x r] eqn:E.
    + simpl. by rewrite <- IH.
    + simpl. rewrite Ec. exact IH.
  - rewrite rstrip_cons. destruct (rstrip z); simpl; by rewrite Ec.
Qed.

Lemma lstrip_idem s : lstrip (lstrip s) = lstrip s.
Proof. destruct (lstrip_head s) as [->|H]; [done | by apply lstrip_nsp]. Qed.

Lemma rstrip_idem s : rstrip (rstrip s) = rstrip s.
Proof. unfold rstrip. by rewrite rev_involutive, lstrip_idem. Qed.

Lemma strip_rstrip z : strip (rstrip z) = strip z.
Proof. unfold strip. by rewrite lstrip_rstrip, rstrip_idem. Qed.

Lemma strip_space s : strip (space :: s) = strip s.
Proof. reflexivity. Qed.

Section Labelled.
Variable lower : str -> str.
Hypothesis lower_ok : lower_spec lower.

Lemma opens_labelled lk x :
  label_ok lower_latin section_map lk ->
  forallb latin_domain (fst lk) = true ->
  find_section lower section_map
    (normalize lower (cp "- " ++ fst lk ++ colon :: x)) = Some (snd lk).
Proof.
  destruct lk as [kw k]. intros (Hh & _ & _ & Hs & Hd & Hha & Hf) Hpl.
  cbn [fst snd] in *. unfold normalize.
  change (colon :: x) with ([colon] ++ x).
  rewrite !replace_char_app, !(replace_char_absent _ _ kw) by done.
  change (replace_char hash [] (replace_char dash [] (replace_char star [] (cp "- "))))
    with [space].
  change (replace_char hash [] (replace_char dash [] (replace_char star [] [colon])))
    with [colon].
  cbn [app]. rewrite strip_space, cons_middle, app_assoc.
  destruct (strip_keeps_head (kw ++ [colon])
              (replace_char hash [] (replace_char dash [] (replace_char star [] x))))
    as [y ->].
  - by apply nsp_head_app.
  - rewrite rev_app_distr. by exists colon, (rev kw).
  - destruct (lower_ok (kw ++ [colon]) y) as (b' & -> & _).
    { rewrite forallb_app, Hpl. reflexivity. }
    rewrite (find_section_latin lower lower_ok).
    unfold lower_latin at 2. rewrite map_app.
    rewrite <- app_assoc. apply Hf.
Qed.

Lemma step_labelled st lk c v :
  label_ok lower_latin section_map lk ->
  forallb latin_domain (fst lk) = true ->
  parsed_data st !! snd lk = Some v ->
  step lower section_map st (cp "- " ++ fst lk ++ cp ": " ++ c)
  = Ok {| parsed_data := <[snd lk := v ++ piece (strip c)]> (parsed_data st);
          current_section := Some (snd lk) |}.
Proof.
  intros Hok Hpl Hd. pose proof Hok as (Hh & Hcol & _).
  destruct lk as [kw k]. cbn [fst snd] in *.
  assert (Hclean : strip (cp "- " ++ kw ++ cp ": " ++ c)
                   = cp "- " ++ kw ++ colon :: rstrip (space :: c)).
  { assert (E : cp "- " ++ kw ++ cp ": " ++ c
                 = (cp "- " ++ kw ++ [colon]) ++ space :: c)
      by (by rewrite <- !app_assoc).
    rewrite E, strip_app_head.
    - by rewrite <- !app_assoc.
    - by exists dash, (space :: kw ++ [colon]).
    - rewrite !rev_app_distr. by exists colon, (rev kw ++ rev (cp "- ")). }
  unfold step. rewrite Hclean. cbn [app cp List.map list_ascii_of_string].
  change (N_of_ascii "-" :: N_of_ascii " " :: kw ++ colon :: rstrip (space :: c))
    with (cp "- " ++ kw ++ colon :: rstrip (space :: c)).
  rewrite (opens_labelled (kw, k)) by done. cbn [snd].
  unfold open_section.
  change (cp "- " ++ kw ++ colon :: rstrip (space :: c))
    with ((cp "- " ++ kw) ++ colon :: rstrip (space :: c)).
  rewrite contains_here, split1_at.
  2: { rewrite contains_app, Hcol. reflexivity. }
  cbn [lookup list_lookup]. rewrite strip_rstrip, strip_space.
  destruct (strip c) as [|c0 c'] eqn:Es; cbn [piece bind].
  - by rewrite app_nil_r, insert_id.
  - unfold dict_append. rewrite Hd. reflexivity.
Qed.

Section LabelledLines.
Variable content : str -> str.

Lemma parse_lines_labelled (pairs : list (str * str)) :
  NoDup (List.map snd pairs) ->
  Forall (fun lk => label_ok lower_latin section_map lk
                    /\ forallb latin_domain (fst lk) = true) pairs ->
  forall st,
    Forall (fun lk => parsed_data st !! snd lk = Some []) pairs ->
    exists st',
      parse_lines lower section_map
        (List.map (fun lk => response_line content (fst lk)) pairs) st = Ok st'
      /\ parsed_data st' = fold_left (fill content) pairs (parsed_data st).
Proof.
  unfold parse_lines.
  induction pairs as [|lk pairs IH]; intros Hnd Hok st Hst; simpl.
  - by exists st.
  - apply NoDup_cons in Hnd as [Hnotin Hnd].
    inversion Hok as [|? ? [Hlk Hpl] Hok']; subst.
    inversion Hst as [|? ? Hd Hst']; subst.
    unfold response_line at 1. rewrite (step_labelled st lk _ []) by done.
    simpl. apply IH; [done..|]. cbn [parsed_data].
    rewrite Forall_forall in *. intros lk' Hin.
    rewrite lookup_insert_ne; [by apply Hst'|].
    intros E. apply Hnotin. rewrite E. apply list_elem_of_In, in_map.
    by apply list_elem_of_In.
Qed.

Lemma lookup_fold_fill_out (pairs : list (str * str)) (d : gmap str str) (k : str) :
  ~ In k (List.map snd pairs) -> fold_left (fill content) pairs d !! k = d !! k.
Proof.
  revert d. induction pairs as [|lk pairs IH]; intros d Hk; simpl in *; [done|].
  rewrite IH by tauto. unfold fill. rewrite lookup_insert_ne; [done|]. tauto.
Qed.

Lemma lookup_fold_fill_in (pairs : list (str * str)) (d : gmap str str) :
  NoDup (List.map snd pairs) ->
  Forall (fun lk => fold_left (fill content) pairs d !! snd lk
                    = Some (piece (strip (content (fst lk))))) pairs.
Proof.
  revert d. induction pairs as [|lk pairs IH]; intros d Hnd; simpl; [done|].
  apply NoDup_cons in Hnd as [Hnotin Hnd]. constructor; [|by apply IH].
  rewrite lookup_fold_fill_out by (by rewrite <- list_elem_of_In).
  unfold fill. by rewrite lookup_insert_eq.
Qed.

Lemma split_response (labels : list str) :
  Forall (fun l => contains newline (response_line content l) = false) labels ->
  split newline (response labels content)
  = List.map (response_line content) labels ++ [[]].
Proof.
  unfold response. induction 1 as [|l labels Hl _ IH]; cbn [flat_map List.map];
    [done|].
  rewrite <- app_assoc. cbn [app]. by rewrite split_line, IH.
Qed.
End LabelledLines.
End Labelled.

Lemma prompt_pairs_ok (vietsub check_ai : bool) :
  let labels := prompt_labels vietsub check_ai in
  let pairs := combine labels (keys section_map) in
  List.map fst pairs = labels
  /\ List.length labels = (if check_ai then 7 else 6)%nat
  /\ NoDup (List.map snd pairs)
  /\ Forall (fun lk => label_ok lower_latin section_map lk
                       /\ forallb latin_domain (fst lk) = true) pairs
  /\ (check_ai = false -> ~ In (cp "AI Plagiarism") (List.map snd pairs)).
Proof.
  intros labels pairs. subst labels pairs.
  destruct vietsub, check_ai;
    (split; [vm_compute; reflexivity|]);
    (split; [vm_compute; reflexivity|]);
    (split; [apply (bool_decide_unpack _); vm_compute; exact I|]);
    (split; [|first [ discriminate
                    | intros _; rewrite <- list_elem_of_In;
                      apply (bool_decide_unpack _); vm_compute; exact I ]]);
    match goal with
    | |- Forall _ ?l => let t := eval vm_compute in l in change l with t
    end;
    repeat constructor; try (by do 2 eexists); try reflexivity;
    intros z; reflexivity.
Qed.

(** X6. An answer in the format the prompt asks for is parsed into the
    sections meant: for either language, with or without the AI line, one
    line ["- Label: content"] per label of [output_structure] fills the
    i-th section key with the stripped content of the i-th label, followed
    by a space (nothing when the content is blank), and without the AI
    line the AI section stays empty. The content is any text without a
    newline, and [lower] is any function that meets [lower_spec]. *)
Theorem prompt_format_parses (lower : str -> str) (vietsub check_ai : bool)
    (content : str -> str) :
  lower_spec lower ->
  (forall l, contains newline (content l) = false) ->
  let labels := prompt_labels vietsub check_ai in
  exists m,
    parse lower section_map (response labels content) = Ok m
    /\ List.length labels = (if check_ai then 7 else 6)%nat
    /\ Forall (fun lk => m !! snd lk = Some (piece (strip (content (fst lk)))))
              (combine labels (keys section_map))
    /\ (check_ai = false -> m !! cp "AI Plagiarism" = Some []).
Proof.
  intros lower_ok Hc labels.
  destruct (prompt_pairs_ok vietsub check_ai) as (Hfst & Hlen & Hnd & Hok & Hai).
  fold labels in Hfst, Hlen, Hnd, Hok, Hai.
  set (pairs := combine labels (keys section_map)) in *.
  set (st0 := {| parsed_data := init_data section_map; current_section := None |}).
  destruct (parse_lines_labelled lower lower_ok content pairs Hnd Hok st0)
    as (st' & Hp & Hd).
  { rewrite Forall_forall in *. intros lk Hin%list_elem_of_In.
    apply init_data_in. subst pairs. destruct lk as [l k].
    by apply in_combine_r in Hin. }
  exists (parsed_data st'). split; [|split; [done|split]].
  - unfold parse. rewrite split_response.
    + rewrite <- Hfst, map_map. unfold parse_lines in *.
      rewrite fold_each_app. fold st0. rewrite Hp. reflexivity.
    + rewrite Forall_forall. intros l Hl. unfold response_line.
      rewrite <- Hfst in Hl. apply list_elem_of_In, in_map_iff in Hl as (lk & <- & Hlk).
      rewrite Forall_forall in Hok. apply list_elem_of_In in Hlk.
      destruct (Hok lk Hlk) as ((_ & _ & Hnl & _) & _).
      by rewrite !contains_app, Hnl, Hc.
  - rewrite Hd. by apply lookup_fold_fill_in.
  - intros Hf. rewrite Hd, lookup_fold_fill_out by auto.
    by apply init_data_in; vm_compute; auto 10.
Qed.

(** *** More on the highlighter *)

Lemma count_char_app c s t : count_char c (s ++ t) = count_char c s + count_char c t.
Proof. induction s as [|x s IH]; simpl; lia. Qed.

Lemma len_app s t : len (s ++ t) = len s + len t.
Proof. unfold len. rewrite length_app. lia. Qed.

Lemma len_replace_char c new s :
  len (replace_char c new s) = len s + (len new - 1) * count_char c s.
Proof.
  unfold replace_char. induction s as [|x s IH]; simpl flat_map.
  - unfold len; cbn [count_char List.length]; lia.
  - rewrite len_app, IH. cbn [count_char].
    destruct (N.eqb x c); unfold len; cbn [List.length]; lia.
Qed.

Lemma contains_replace_char c new s :
  contains c new = false -> contains c (replace_char c new s) = false.
Proof.
  intros Hn. unfold replace_char. induction s as [|x s IH]; simpl flat_map; [done|].
  rewrite contains_app, IH, orb_false_r.
  destruct (N.eqb x c) eqn:E; [done|]. simpl. by rewrite N.eqb_sym, E.
Qed.

(** With a non-negative offset and length, one pass cuts the working copy
    in three and puts the tags between the parts. *)
Lemma splice_parts (s : str) (e : ErrorSpan) :
  0 <= offset e -> 0 <= err_length e ->
  exists p q r, s = p ++ q ++ r
                /\ splice s e = p ++ span_open ++ q ++ span_close ++ r.
Proof.
  intros Ho Hl. unfold splice, slice, clamp_index. cbn [from_option].
  destruct (Z.ltb_spec (offset e) 0); [lia|].
  destruct (Z.ltb_spec (offset e + err_length e) 0); [lia|].
  set (n := len s).
  set (a := Z.to_nat (Z.min (offset e) n)).
  set (b := Z.to_nat (Z.min (offset e + err_length e) n)).
  assert (Hn : n = Z.of_nat (List.length s)) by reflexivity.
  assert (Hab : (a <= b <= List.length s)%nat) by lia.
  exists (take a s), (take (b - a) (drop a s)), (drop b s).
  replace (Z.to_nat (Z.min (offset e) n - 0)) with a by lia.
  replace (Z.to_nat (Z.min (offset e + err_length e) n - Z.min (offset e) n))
    with (b - a)%nat by lia.
  rewrite drop_0. fold a b.
  replace (take (Z.to_nat (n - Z.min (offset e + err_length e) n)) (drop b s))
    with (drop b s) by (symmetry; apply take_ge; rewrite length_drop; lia).
  split; [|by rewrite <- !app_assoc].
  rewrite <- (take_drop a s) at 1. f_equal.
  rewrite <- (take_drop (b - a) (drop a s)) at 1. f_equal.
  rewrite drop_drop. f_equal. lia.
Qed.

Lemma splice_measure (s : str) (e : ErrorSpan) :
  0 <= offset e -> 0 <= err_length e ->
  len (splice s e) = len s + markup_overhead
  /\ count_char newline (splice s e) = count_char newline s.
Proof.
  intros Ho Hl. destruct (splice_parts s e Ho Hl) as (p & q & r & Hs & ->).
  subst s. rewrite !len_app, !count_char_app.
  change (len span_open) with 28. change (len span_close) with 7.
  change (count_char newline span_open) with 0.
  change (count_char newline span_close) with 0.
  change markup_overhead with 35. lia.
Qed.

Lemma spliced_measure (errors : list ErrorSpan) (s : str) :
  Forall (fun e => 0 <= offset e /\ 0 <= err_length e) errors ->
  len (spliced s errors) = len s + markup_overhead * Z.of_nat (List.length errors)
  /\ count_char newline (spliced s errors) = count_char newline s.
Proof.
  unfold spliced. intros H. revert s.
  induction H as [|e errors [Ho Hl] _ IH]; intros s; simpl fold_left.
  - cbn [List.length]. lia.
  - destruct (IH (splice s e)) as [IH1 IH2].
    destruct (splice_measure s e Ho Hl) as [H1 H2].
    rewrite IH1, IH2, H1, H2. cbn [List.length]. lia.
Qed.

(** X7. Whatever the spans, overlapping or past the end of the text, as long
    as offsets and lengths are non-negative and there is at least one: the
    length of the output is the length of the text plus [markup_overhead]
    (35) per span plus 3 per newline of the text. *)
Theorem highlight_length_any_spans (text : str) (errors : list ErrorSpan) :
  Forall (fun e => 0 <= offset e /\ 0 <= err_length e) errors ->
  errors <> [] ->
  len (fst (render_simple_highlight text errors))
  = len text + markup_overhead * Z.of_nat (List.length errors)
    + 3 * count_char newline text.
Proof.
  intros H Hne. destruct errors as [|e es]; [done|].
  cbn [render_simple_highlight fst].
  rewrite len_replace_char.
  destruct (spliced_measure (sort_desc offset (e :: es)) text) as [H1 H2].
  { by rewrite sort_desc_perm. }
  rewrite H1, H2, (Permutation_length (sort_desc_perm offset (e :: es))).
  change (len br) with 4. lia.
Qed.

Lemma splice_past_the_end (text : str) (e : ErrorSpan) :
  len text <= offset e -> 0 <= err_length e ->
  splice text e = text ++ span_open ++ span_close.
Proof.
  intros Ho Hl. unfold splice, slice, clamp_index, len in *. cbn [from_option].
  destruct (Z.ltb_spec (offset e) 0); [lia|].
  destruct (Z.ltb_spec (offset e + err_length e) 0); [lia|].
  rewrite !Z.min_r by lia. rewrite Z.sub_diag, Z.sub_0_r, Nat2Z.id.
  rewrite drop_0, take_ge by lia. cbn [take Z.to_nat].
  rewrite drop_ge by lia. by rewrite !app_nil_r.
Qed.

(** X8. A span that starts at or after the end of the text wraps nothing: an
    empty wrapper is put after the text, and nothing raises. *)
Theorem highlight_span_past_the_end (text : str) (e : ErrorSpan) :
  len text <= offset e -> 0 <= err_length e ->
  fst (render_simple_highlight text [e])
  = replace_char newline br text ++ span_open ++ span_close.
Proof.
  intros Ho Hl. cbn [render_simple_highlight fst sort_desc insert_desc].
  unfold spliced. cbn [fold_left]. rewrite splice_past_the_end by done.
  rewrite !replace_char_app.
  by rewrite (replace_char_absent _ _ span_open),
             (replace_char_absent _ _ span_close).
Qed.

(** X9. With at least one span the output holds no newline. *)
Theorem highlight_output_has_no_newline (text : str) (errors : list ErrorSpan) :
  errors <> [] ->
  contains newline (fst (render_simple_highlight text errors)) = false.
Proof.
  intros Hne. destruct errors as [|e es]; [done|].
  cbn [render_simple_highlight fst]. by apply contains_replace_char.
Qed.

Lemma sort_desc_idem {A} (key : A -> Z) l :
  sort_desc key (sort_desc key l) = sort_desc key l.
Proof. apply sort_desc_id, sort_desc_sorted. Qed.

(** X10. A second call on the list the first call left behind changes nothing
    more and gives the same output. *)
Theorem highlight_second_call_same (text : str) (errors : list ErrorSpan) :
  let first := render_simple_highlight text errors in
  render_simple_highlight text (snd first) = first.
Proof.
  destruct errors as [|e es]; [reflexivity|].
  cbn [render_simple_highlight snd].
  destruct (sort_desc offset (e :: es)) as [|e' es'] eqn:E.
  - apply (f_equal (@List.length _)) in E.
    rewrite (Permutation_length (sort_desc_perm offset (e :: es))) in E. done.
  - cbn [render_simple_highlight]. rewrite <- E. by rewrite sort_desc_idem.
Qed.

(** *** More on the grammar client *)

Lemma read_records_ok text j errors :
  read_records text j = Ok errors ->
  exists matches, payload_matches j = Ok matches
                  /\ Forall2 (record_of text) matches errors.
Proof.
  unfold read_records, payload_matches. intros H.
  apply bind_ok in H as (ms0 & Hms0 & H). apply bind_ok in H as (ms & Hms & H).
  exists ms. rewrite Hms0. split; [exact Hms|].
  apply for_each_ok in H. eapply Forall2_impl; [exact H|].
  intros m r. apply error_of_match_record.
Qed.

Lemma check_text_cases text o errors :
  check_text text o = Ok errors ->
  errors = []
  \/ exists s j, o = Responded s (Some j) /\ read_records text j = Ok errors.
Proof.
  unfold check_text, check_text_body.
  destruct o as [| |s b]; cbn [requests_post bind try_except].
  - intros [= <-]. by left.
  - intros [= <-]. by left.
  - destruct (raise_for_status _); cbn [bind try_except];
      [|intros [= <-]; by left].
    destruct b as [j|]; cbn [response_json body bind try_except];
      [|intros [= <-]; by left].
    destruct (read_records text j) as [l|] eqn:E; cbn [try_except].
    + intros [= <-]. right. by exists s, j.
    + intros [= <-]. by left.
Qed.

(** X11. Never a partial list: the client returns either nothing or one record
    for every match of the payload, in order. *)
Theorem check_text_all_or_nothing (text : str) (o : post_outcome)
    (errors : list ErrorSpan) :
  check_text text o = Ok errors ->
  errors = []
  \/ exists s j matches,
       o = Responded s (Some j)
       /\ payload_matches j = Ok matches
       /\ List.length errors = List.length matches.
Proof.
  intros [->|(s & j & -> & Hr)]%check_text_cases; [by left|].
  right. apply read_records_ok in Hr as (ms & Hms & HF).
  exists s, j, ms. repeat split; [done|]. symmetry. by eapply Forall2_length.
Qed.

Lemma slice_infix (s : str) lo hi :
  exists pre post, s = pre ++ slice s lo hi ++ post.
Proof.
  unfold slice. cbv zeta.
  match goal with
  | |- context [take ?k (drop ?a s)] =>
      exists (take a s), (drop k (drop a s));
      by rewrite (take_drop k (drop a s)), (take_drop a s)
  end.
Qed.

Lemma len_slice_bound (s : str) (o l : Z) :
  0 <= l -> len (slice s (Some o) (Some (o + l))) <= l.
Proof.
  intros Hl.
  unfold slice, clamp_index, len. cbn [from_option].
  rewrite length_take, length_drop.
  destruct (Z.ltb_spec o 0), (Z.ltb_spec (o + l) 0); lia.
Qed.

(** X12. Whatever offsets the backend sends, the matched text of a returned
    record is a stretch of the checked text, and no longer than the length
    the record carries when that is not negative. *)
Theorem check_text_bad_word_is_from_text (text : str) (o : post_outcome)
    (errors : list ErrorSpan) :
  check_text text o = Ok errors ->
  Forall (fun r => (exists pre post, text = pre ++ bad_word r ++ post)
                   /\ (0 <= err_length r -> len (bad_word r) <= err_length r))
         errors.
Proof.
  intros [->|(s & j & -> & Hr)]%check_text_cases; [constructor|].
  apply read_records_ok in Hr as (ms & _ & HF).
  induction HF as [|m r ms rs Hr _ IH]; constructor; [|exact IH].
  destruct Hr as (_ & _ & _ & _ & -> & _).
  split; [apply slice_infix | apply len_slice_bound].
Qed.

Lemma check_text_failure_empty text o : failure text o -> check_text text o = Ok [].
Proof.
  unfold check_text, check_text_body.
  destruct 1 as [| |s b Hs|s|s j e He]; cbn [requests_post bind try_except].
  - reflexivity.
  - reflexivity.
  - unfold raise_for_status; cbn [status_code].
    replace (400 <=? s) with true by (symmetry; apply Z.leb_le; lia).
    replace (s <? 600) with true by (symmetry; apply Z.ltb_lt; lia).
    reflexivity.
  - destruct (raise_for_status _); reflexivity.
  - destruct (raise_for_status _); [|reflexivity].
    cbn [response_json body bind]. by rewrite He.
Qed.

(** *** What [main] renders *)

(** X13. A failed grammar check is shown exactly as a clean essay is. *)
Theorem grammar_pass_failure_looks_clean (essay_input : str) (o : post_outcome) :
  failure essay_input o -> grammar_pass essay_input o = Ok NoErrorsFound.
Proof.
  intros H. unfold grammar_pass. by rewrite check_text_failure_empty.
Qed.

Lemma for_each_as_str_ok items :
  Forall is_str items -> exists strs, for_each as_str items = Ok strs.
Proof.
  induction 1 as [|v items [s ->] _ [strs IH]]; simpl; [by eexists|].
  rewrite IH. by eexists.
Qed.

Lemma for_each_as_str_raise items :
  ~ Forall is_str items -> for_each as_str items = Raise TypeError.
Proof.
  induction items as [|v items IH]; intros H.
  - exfalso. apply H. constructor.
  - simpl. destruct v; try reflexivity. cbn [as_str bind].
    rewrite IH; [done|]. intros HF. apply H. constructor; [by eexists | done].
Qed.

(** X14. The Suggestions cell of a record is computed when all its
    replacements are strings, and is a [TypeError] otherwise. *)
Theorem suggestions_need_strings (e : ErrorSpan) :
  (Forall is_str (replacements e) -> exists s, suggestions e = Ok s)
  /\ (~ Forall is_str (replacements e) -> suggestions e = Raise TypeError).
Proof.
  unfold suggestions, py_join. split.
  - intros H. destruct (replacements e) as [|v vs]; [by eexists|].
    destruct (for_each_as_str_ok _ H) as [strs ->]. by eexists.
  - intros H. destruct (replacements e) as [|v vs].
    + exfalso. apply H. constructor.
    + by rewrite for_each_as_str_raise.
Qed.

(** X15. The table is built for the records in descending order of offset, not
    in the backend's order, and the text shown above it holds no
    newline. *)
Theorem show_grammar_table_order (essay_input : str) (errors : list ErrorSpan)
    (count : Z) (html_view : str) (table : result (list (str * str))) :
  show_grammar essay_input errors = Issues count html_view table ->
  count = Z.of_nat (List.length errors)
  /\ contains newline html_view = false
  /\ exists sorted, Permutation errors sorted
                    /\ StronglySorted (desc offset) sorted
                    /\ table = error_data sorted.
Proof.
  unfold show_grammar. destruct errors as [|e es]; [done|].
  intros [= <- <- <-]. split; [done|]. split.
  - cbn [render_simple_highlight fst]. apply contains_replace_char. reflexivity.
  - exists (sort_desc offset (e :: es)). split; [|split].
    + symmetry. apply sort_desc_perm.
    + apply sort_desc_sorted.
    + reflexivity.
Qed.

Lemma lstrip_char_suffix c s : exists n, lstrip_char c s = drop n s.
Proof.
  induction s as [|x s [n IH]]; simpl; [by exists 0%nat|].
  destruct (N.eqb x c); [by exists (S n) | by exists 0%nat].
Qed.

(** X16. What [show_section] emits is the title in bold followed by content
    that is not empty and has no outer whitespace. *)
Theorem show_section_content (parsed_data : gmap str str)
    (title content_key markdown : str) :
  show_section parsed_data title content_key = Some markdown ->
  exists content,
    markdown = cp "**" ++ title ++ cp ":** " ++ content
    /\ content <> [] /\ strip content = content.
Proof.
  unfold show_section.
  destruct (strip (lstrip_char dash _)) as [|c cl] eqn:E; [done|].
  intros [= <-]. exists (c :: cl). repeat split; [done|].
  rewrite <- E. symmetry. apply strip_idem.
Qed.

(** X17. A section the answer never opens is not rendered. *)
Theorem unopened_section_not_shown (lower : str -> str) (raw title k : str)
    (m : gmap str str) :
  parse lower section_map raw = Ok m ->
  In k (keys section_map) ->
  Forall (fun line => opens lower section_map line <> Some k)
         (split newline raw) ->
  show_section m title k = None.
Proof.
  intros Hp Hk Hl. unfold show_section, dict_get.
  by rewrite (parse_unopened_empty lower section_map raw k m Hp Hk Hl).
Qed.

Lemma strip_stars_space n : strip (repeat star n ++ [space]) = repeat star n.
Proof.
  destruct n as [|n]; [reflexivity|].
  apply strip_trailing_space.
  - by exists star, (repeat star n).
  - rewrite rev_repeat. by exists star, (repeat star n).
Qed.

Lemma lstrip_char_stars n : lstrip_char star (repeat star n) = [].
Proof. induction n; simpl; [done | exact IHn]. Qed.

(** X18. A final evaluation made of asterisks only is still given its heading,
    with nothing in it, where [show_section] would emit nothing. *)
Theorem final_evaluation_of_asterisks (parsed_data : gmap str str) (n : nat)
    (title : str) :
  (0 < n)%nat ->
  parsed_data !! cp "Final Evaluation" = Some (repeat star n ++ [space]) ->
  show_final_evaluation parsed_data = Some (cp "### Final Evaluation: :blue[]")
  /\ show_section parsed_data title (cp "Final Evaluation") = None.
Proof.
  intros Hn Hv. unfold show_final_evaluation, show_section, dict_get.
  rewrite Hv. cbn [from_option id]. rewrite strip_stars_space.
  destruct n as [|n]; [lia|]. cbn [repeat].
  change (lstrip_char star (star :: repeat star n))
    with (lstrip_char star (repeat star n)).
  rewrite !lstrip_char_stars. split; reflexivity.
Qed.

(** *** The highlighter without spans *)

Lemma count_char_nonneg c s : 0 <= count_char c s.
Proof. induction s as [|x s IH]; simpl; [lia | destruct (N.eqb x c); lia]. Qed.

Lemma count_char_contains c s : count_char c s = 0 -> contains c s = false.
Proof.
  unfold contains. induction s as [|x s IH]; simpl; [done|].
  intros E. pose proof (count_char_nonneg c s). rewrite N.eqb_sym.
  destruct (N.eqb x c); simpl; [lia | apply IH; lia].
Qed.

(** The conversion leaves a text as it is only when there is no newline
    to convert. *)
Lemma replace_newline_fixed s :
  replace_char newline br s = s <-> contains newline s = false.
Proof.
  split; [|apply replace_char_absent].
  intros E. apply count_char_contains.
  pose proof (len_replace_char newline br s) as H. rewrite E in H.
  change (len br) with 4 in H. lia.
Qed.

(** C1, as the code has it. With an empty span sequence the function
    returns the text as it is (lines 139-140): no newline is converted, so
    the output is the newline-converted text exactly when the text has no
    newline. The conversion of line 155 is on the other path, the one
    [main] takes: line 380 calls the function under [if grammar_errors:],
    so with a non-empty sequence, and the markup shown then is the
    converted working copy, with no newline left. *)
Theorem highlight_no_spans_unchanged (text : str) :
  render_simple_highlight text [] = (text, [])
  /\ (fst (render_simple_highlight text []) = replace_char newline br text
      <-> contains newline text = false)
  /\ show_grammar text [] = NoErrorsFound
  /\ (forall errors count html table,
        show_grammar text errors = Issues count html table ->
        errors <> []
        /\ html = replace_char newline br (spliced text (sort_desc offset errors))
        /\ contains newline html = false).
Proof.
  split; [reflexivity|]. split; [|split; [reflexivity|]].
  - cbn [render_simple_highlight fst]. rewrite <- replace_newline_fixed.
    split; intros E; by symmetry.
  - intros [|e es] count html table; [discriminate|].
    cbn [show_grammar render_simple_highlight fst snd]. intros [= _ <- _].
    split; [discriminate|]. split; [reflexivity|].
    by apply contains_replace_char.
Qed.

Lemma highlight_no_spans_unchanged_witness :
  contains newline (cp "ab") = false
  /\ fst (render_simple_highlight (cp "ab") []) = replace_char newline br (cp "ab").
Proof.
  assert (H : contains newline (cp "ab") = false) by reflexivity.
  split; [exact H|].
  exact (proj2 (proj1 (proj2 (highlight_no_spans_unchanged (cp "ab")))) H).
Defined.

(** A text with a newline and no span comes back with its newline. *)
Lemma highlight_no_spans_counterexample :
  let text := cp "a" ++ [newline] ++ cp "b" in
  replace_char newline br text = cp "a<br>b"
  /\ fst (render_simple_highlight text []) = text
  /\ fst (render_simple_highlight text []) <> replace_char newline br text.
Proof. repeat split. vm_compute. discriminate. Qed.

(** *** The further properties at concrete inputs *)

Lemma parse_ignores_blank_lines_witness :
  let a := cp "Summary: fine" in
  let blank := cp "   " in
  let b := cp "and more" in
  Forall (fun l => strip l = []) (split newline blank)
  /\ parse lower_latin section_map (a ++ newline :: blank ++ newline :: b)
     = parse lower_latin section_map (a ++ newline :: b).
Proof.
  intros a blank b.
  assert (H : Forall (fun l => strip l = []) (split newline blank))
    by (by repeat constructor).
  split; [exact H|].
  exact (parse_ignores_blank_lines lower_latin section_map a blank b H).
Defined.

Lemma parse_more_text_extends_witness :
  let a := cp "Summary: fine" in
  let b := cp "and more" in
  let m1 := <[cp "Summary" := cp "fine "]> (init_data section_map) in
  let m2 := <[cp "Summary" := cp "fine and more "]> (init_data section_map) in
  parse lower_latin section_map a = Ok m1
  /\ parse lower_latin section_map (a ++ newline :: b) = Ok m2
  /\ m1 !! cp "Summary" = Some (cp "fine ")
  /\ exists x, m2 !! cp "Summary" = Some (cp "fine " ++ x).
Proof.
  intros a b m1 m2.
  assert (H1 : parse lower_latin section_map a = Ok m1) by (vm_compute; reflexivity).
  assert (H2 : parse lower_latin section_map (a ++ newline :: b) = Ok m2)
    by (vm_compute; reflexivity).
  assert (H3 : m1 !! cp "Summary" = Some (cp "fine ")) by reflexivity.
  split; [exact H1 | split; [exact H2 | split; [exact H3|]]].
  exact (parse_more_text_extends lower_latin section_map a b m1 m2 H1 H2
           (cp "Summary") (cp "fine ") H3).
Defined.

Lemma parse_unopened_section_empty_witness :
  let raw := cp "Summary: fine" in
  let k := cp "Coherence" in
  let m := <[cp "Summary" := cp "fine "]> (init_data section_map) in
  parse lower_latin section_map raw = Ok m
  /\ In k (keys section_map)
  /\ Forall (fun line => opens lower_latin section_map line <> Some k)
            (split newline raw)
  /\ m !! k = Some [].
Proof.
  intros raw k m.
  assert (H1 : parse lower_latin section_map raw = Ok m) by (vm_compute; reflexivity).
  assert (H2 : In k (keys section_map)) by (vm_compute; auto 10).
  assert (H3 : Forall (fun line => opens lower_latin section_map line <> Some k)
                      (split newline raw))
    by (repeat constructor; vm_compute; discriminate).
  split; [exact H1 | split; [exact H2 | split; [exact H3|]]].
  exact (parse_unopened_section_empty lower_latin section_map raw k m H1 H2 H3).
Defined.

Lemma parse_values_shape_witness :
  let raw := cp "Summary:   fine  " in
  let m := <[cp "Summary" := cp "fine "]> (init_data section_map) in
  parse lower_latin section_map raw = Ok m
  /\ forall k, is_Some (m !! k) <-> In k (keys section_map).
Proof.
  intros raw m.
  assert (H : parse lower_latin section_map raw = Ok m) by (vm_compute; reflexivity).
  split; [exact H|].
  exact (proj1 (parse_values_shape lower_latin section_map raw m H)).
Defined.

Lemma prompt_format_parses_witness :
  let content := fun _ : str => cp " **good** work " in
  lower_spec lower_latin
  /\ (forall l, contains newline (content l) = false)
  /\ exists m,
       parse lower_latin section_map (response (prompt_labels true false) content)
       = Ok m
       /\ List.length (prompt_labels true false) = 6%nat
       /\ Forall (fun lk => m !! snd lk
                            = Some (piece (strip (content (fst lk)))))
                 (combine (prompt_labels true false) (keys section_map))
       /\ (false = false -> m !! cp "AI Plagiarism" = Some []).
Proof.
  intros content.
  assert (H : forall l, contains newline (content l) = false)
    by (intros l; reflexivity).
  assert (Hl : lower_spec lower_latin).
  { intros a b _. exists (lower_latin b). split; [apply map_app | by intros ->]. }
  split; [exact Hl|]. split; [exact H|].
  exact (prompt_format_parses lower_latin true false content Hl H).
Defined.

Lemma highlight_length_any_spans_witness :
  let text := cp "ab" ++ [newline] ++ cp "cd" in
  let errors := [span_of 0 3; span_of 1 9] in
  Forall (fun e => 0 <= offset e /\ 0 <= err_length e) errors
  /\ errors <> []
  /\ len (fst (render_simple_highlight text errors)) = 5 + 35 * 2 + 3 * 1.
Proof.
  intros text errors.
  assert (H : Forall (fun e => 0 <= offset e /\ 0 <= err_length e) errors)
    by (repeat constructor; vm_compute; discriminate).
  assert (Hne : errors <> []) by discriminate.
  split; [exact H | split; [exact Hne|]].
  exact (highlight_length_any_spans text errors H Hne).
Defined.

Lemma highlight_span_past_the_end_witness :
  let text := cp "ab" in
  let e := span_of 5 2 in
  len text <= offset e /\ 0 <= err_length e
  /\ fst (render_simple_highlight text [e])
     = replace_char newline br text ++ span_open ++ span_close.
Proof.
  intros text e.
  assert (H1 : len text <= offset e) by (vm_compute; discriminate).
  assert (H2 : 0 <= err_length e) by (vm_compute; discriminate).
  split; [exact H1 | split; [exact H2|]].
  exact (highlight_span_past_the_end text e H1 H2).
Defined.

Lemma highlight_output_has_no_newline_witness :
  let text := cp "a" ++ [newline] ++ cp "b" in
  let errors := [span_of 0 1] in
  errors <> []
  /\ contains newline (fst (render_simple_highlight text errors)) = false.
Proof.
  intros text errors.
  assert (H : errors <> []) by discriminate.
  split; [exact H|]. exact (highlight_output_has_no_newline text errors H).
Defined.

Lemma check_text_all_or_nothing_witness :
  let text := cp "abc" in
  let o := Responded 200 (Some (sample_payload 1 2)) in
  let r := {| offset := 1; err_length := 2;
              replacements := [JStr (cp "w"); JStr (cp "x"); JStr (cp "y")];
              bad_word := cp "bc" |} in
  check_text text o = Ok [r]
  /\ ([r] = []
      \/ exists s j matches,
           o = Responded s (Some j)
           /\ payload_matches j = Ok matches
           /\ List.length [r] = List.length matches).
Proof.
  intros text o r.
  assert (H : check_text text o = Ok [r]) by (vm_compute; reflexivity).
  split; [exact H|]. exact (check_text_all_or_nothing text o [r] H).
Defined.

Lemma check_text_bad_word_is_from_text_witness :
  let text := cp "abc" in
  let o := Responded 200 (Some (sample_payload 2 5)) in
  let r := {| offset := 2; err_length := 5;
              replacements := [JStr (cp "w"); JStr (cp "x"); JStr (cp "y")];
              bad_word := cp "c" |} in
  check_text text o = Ok [r]
  /\ Forall (fun r => (exists pre post, text = pre ++ bad_word r ++ post)
                      /\ (0 <= err_length r -> len (bad_word r) <= err_length r))
            [r].
Proof.
  intros text o r.
  assert (H : check_text text o = Ok [r]) by (vm_compute; reflexivity).
  split; [exact H|]. exact (check_text_bad_word_is_from_text text o [r] H).
Defined.

Lemma grammar_pass_failure_looks_clean_witness :
  let essay_input := cp "This claims is inaccurate." in
  failure essay_input TimedOut
  /\ grammar_pass essay_input TimedOut = Ok NoErrorsFound.
Proof.
  intros essay_input.
  assert (H : failure essay_input TimedOut) by apply timeout.
  split; [exact H|]. exact (grammar_pass_failure_looks_clean essay_input TimedOut H).
Defined.

Lemma suggestions_need_strings_witness :
  let e := {| offset := 0; err_length := 1;
              replacements := [JStr (cp "the"); JInt 5]; bad_word := cp "a" |} in
  ~ Forall is_str (replacements e) /\ suggestions e = Raise TypeError.
Proof.
  intros e.
  assert (H : ~ Forall is_str (replacements e)).
  { intros HF. inversion HF as [|? ? _ HF']. inversion HF' as [|? ? [s Hs] _].
    discriminate Hs. }
  split; [exact H|]. exact (proj2 (suggestions_need_strings e) H).
Defined.

Lemma show_grammar_table_order_witness :
  let essay_input := cp "ab" ++ [newline] ++ cp "cd" in
  let errors := [span_of 0 1; span_of 3 1] in
  exists html_view table,
    show_grammar essay_input errors = Issues 2 html_view table
    /\ contains newline html_view = false
    /\ table = error_data [span_of 3 1; span_of 0 1].
Proof.
  intros essay_input errors.
  exists (fst (render_simple_highlight essay_input errors)).
  exists (error_data (snd (render_simple_highlight essay_input errors))).
  assert (H : show_grammar essay_input errors
              = Issues 2 (fst (render_simple_highlight essay_input errors))
                  (error_data (snd (render_simple_highlight essay_input errors))))
    by reflexivity.
  split; [exact H|].
  split; [exact (proj1 (proj2 (show_grammar_table_order _ _ _ _ _ H)))|].
  reflexivity.
Defined.

Lemma show_section_content_witness :
  let parsed_data : gmap str str := {[ cp "Summary" := cp "** fine work " ]} in
  show_section parsed_data (cp "Summary") (cp "Summary")
  = Some (cp "**Summary:** fine work")
  /\ exists content,
       cp "**Summary:** fine work" = cp "**" ++ cp "Summary" ++ cp ":** " ++ content
       /\ content <> [] /\ strip content = content.
Proof.
  intros parsed_data.
  assert (H : show_section parsed_data (cp "Summary") (cp "Summary")
              = Some (cp "**Summary:** fine work")) by (vm_compute; reflexivity).
  split; [exact H|].
  exact (show_section_content parsed_data _ _ _ H).
Defined.

Lemma unopened_section_not_shown_witness :
  let raw := cp "Summary: fine" in
  let k := cp "Coherence" in
  let m := <[cp "Summary" := cp "fine "]> (init_data section_map) in
  parse lower_latin section_map raw = Ok m
  /\ In k (keys section_map)
  /\ Forall (fun line => opens lower_latin section_map line <> Some k)
            (split newline raw)
  /\ show_section m (cp "Coherence") k = None.
Proof.
  intros raw k m.
  assert (H1 : parse lower_latin section_map raw = Ok m) by (vm_compute; reflexivity).
  assert (H2 : In k (keys section_map)) by (vm_compute; auto 10).
  assert (H3 : Forall (fun line => opens lower_latin section_map line <> Some k)
                      (split newline raw))
    by (repeat constructor; vm_compute; discriminate).
  split; [exact H1 | split; [exact H2 | split; [exact H3|]]].
  exact (unopened_section_not_shown lower_latin raw (cp "Coherence") k m H1 H2 H3).
Defined.

Lemma final_evaluation_of_asterisks_witness :
  let parsed_data : gmap str str := {[ cp "Final Evaluation" := cp "** " ]} in
  (0 < 2)%nat
  /\ parsed_data !! cp "Final Evaluation" = Some (repeat star 2 ++ [space])
  /\ show_final_evaluation parsed_data = Some (cp "### Final Evaluation: :blue[]")
  /\ show_section parsed_data (cp "Final Evaluation") (cp "Final Evaluation")
     = None.
Proof.
  intros parsed_data.
  assert (H1 : (0 < 2)%nat) by lia.
  assert (H2 : parsed_data !! cp "Final Evaluation"
               = Some (repeat star 2 ++ [space])) by reflexivity.
  split; [exact H1 | split; [exact H2|]].
  exact (final_evaluation_of_asterisks parsed_data 2 (cp "Final Evaluation") H1 H2).
Defined.
